(** * SimpleSignal.h: a shallow embedding of [signals::Signal] and
    [signals::PrioritySignal], and the properties of their registries.

    Layout:
    - machine integers ([int], the type behind [callback_id]);
    - callbacks, and the small monad in which [dispatch] runs them;
    - [std::map<int, V>] and [std::list<T>::sort] as far as the header uses them;
    - [Module Signal], [Module PrioritizedCallback], [Module PrioritySignal];
    - helper lemmas, then one theorem per property. *)

From stdpp Require Import base numbers list sorting gmap.

Local Open Scope Z_scope.

(** ** [int]

    [typedef int callback_id]: a 32-bit two's complement integer.  The
    values are carried in [Z]; [++] wraps around at [INT_MAX]. *)

Abbreviation callback_id := Z (only parsing).

Definition INT_MIN : Z := - 2 ^ 31.
Definition INT_MAX : Z := 2 ^ 31 - 1.

Definition int_wrap (z : Z) : Z := (z + 2 ^ 31) `mod` 2 ^ 32 - 2 ^ 31.

(** [++i] on an [int]: the new value of [i], which is also the value of
    the expression. *)
Definition pre_increment (i : Z) : Z := int_wrap (i + 1).

(** The values of [n] successive [++i], starting from [i = c]. *)
Definition increments (c : Z) (n : nat) : list Z :=
  (λ k : nat, int_wrap (c + Z.of_nat k)) <$> seq 1 n.

(** What is asked of the identifiers that the [add] calls on one registry
    return, listed in the order of the calls. *)
Definition issued_from_one (ids : list callback_id) : Prop :=
  StronglySorted Z.lt ids ∧ (0 ∉ ids) ∧ NoDup ids
  ∧ (∀ id, head ids = Some id → id = 1).

(** ** Callbacks and the effects of calling them

    A callback is [std::function<void(callback_types...)>] (for
    [PrioritySignal::add] a plain function pointer converted to one).  It is
    called with the argument pack [Args]; it acts on the rest of the
    program, [World], and either returns or throws an [Exn].  The registry
    that holds the callback is not part of [World]: a listener that
    re-enters the registry it is dispatched from is outside this model. *)

Section Effects.
Context {Args World Exn : Type}.

Inductive outcome : Type :=
  | Normal (w : World)
  | Thrown (e : Exn) (w : World).

Definition callback : Type := Args → World → outcome.

(** One call [cb(args...)] made by a dispatch loop, as an observer of the
    loop would log it: the identifier the callback is stored under, the
    callback, the arguments. *)
Record invocation : Type := Invoke {
  inv_id : callback_id;
  inv_cb : callback;
  inv_args : Args
}.

(** How a member function ends: it returns a value, or an exception
    leaves it. *)
Inductive completion (A : Type) : Type :=
  | Returns (x : A) (w : World)
  | Throws (e : Exn) (w : World).

(** What running a member function on an object of state [S] gives: the
    calls made to listeners, in order; the object afterwards; the
    completion. *)
Record run (S A : Type) : Type := Run {
  calls : list invocation;
  final : S;
  ending : completion A
}.

Definition method (S A : Type) : Type := S → World → run S A.

Definition method_ret {S A} (x : A) : method S A :=
  λ s w, Run S A [] s (Returns A x w).

Definition method_bind {S A B} (m : method S A) (f : A → method S B) :
    method S B :=
  λ s w,
    match m s w with
    | Run _ _ t1 s1 (Returns _ x w1) =>
        match f x s1 w1 with
        | Run _ _ t2 s2 c => Run S B (t1 ++ t2) s2 c
        end
    | Run _ _ t1 s1 (Throws _ e w1) => Run S B t1 s1 (Throws B e w1)
    end.

(** Read a data member of [*this]. *)
Definition member {S A} (f : S → A) : method S A :=
  λ s w, Run S A [] s (Returns A (f s) w).

(** The call [cb(args...)] of the callback stored under [id]. *)
Definition invoke {S} (id : callback_id) (cb : callback) (args : Args) :
    method S unit :=
  λ s w,
    Run S unit [Invoke id cb args] s
      match cb args w with
      | Normal w' => Returns unit tt w'
      | Thrown e w' => Throws unit e w'
      end.

(** The range-based [for (auto x : xs) body(x);]. *)
Fixpoint for_each {S X} (xs : list X) (body : X → method S unit) :
    method S unit :=
  match xs with
  | [] => method_ret tt
  | x :: xs' => method_bind (body x) (λ _, for_each xs' body)
  end.

(** [returns_all args w cbs w']: called one after the other with [args],
    starting in [w], the callbacks [cbs] all return, and leave [w']. *)
Inductive returns_all (args : Args) : World → list callback → World → Prop :=
  | returns_nil w : returns_all args w [] w
  | returns_cons w w1 w2 cb cbs :
      cb args w = Normal w1 →
      returns_all args w1 cbs w2 →
      returns_all args w (cb :: cbs) w2.

(** The loop of both [dispatch] functions. *)
Definition call_each {S} (l : list (callback_id * callback)) (args : Args) :
    method S unit :=
  for_each l (λ cb, invoke cb.1 cb.2 args).

Definition invocation_of (args : Args) (cb : callback_id * callback) :
    invocation :=
  Invoke cb.1 cb.2 args.
End Effects.

Arguments outcome : clear implicits.
Arguments callback : clear implicits.
Arguments invocation : clear implicits.
Arguments completion : clear implicits.
Arguments run : clear implicits.
Arguments method : clear implicits.
Arguments Returns {World Exn A} x w.
Arguments Throws {World Exn A} e w.
Arguments Run {Args World Exn S A} calls final ending.
Arguments calls {Args World Exn S A} r.
Arguments final {Args World Exn S A} r.
Arguments ending {Args World Exn S A} r.

Notation "x ←' m ; k" := (method_bind m (λ x, k))
  (at level 20, m at level 100, k at level 200, only parsing, right associativity).

(** ** [std::map<int, V>]

    A [gmap Z V] holds the key–value pairs; what the header uses of the
    container is written out: [insert] keeps the old value when the key is
    already present, [erase] and [clear], and iteration from [begin()] to
    [end()], which visits the pairs by ascending key. *)

Section std_map.
Context {V : Type}.

Definition map_insert (k : Z) (v : V) (m : gmap Z V) : gmap Z V :=
  match m !! k with
  | Some _ => m
  | None => <[k:=v]> m
  end.

Definition map_erase (k : Z) (m : gmap Z V) : gmap Z V := delete k m.

Definition map_clear (m : gmap Z V) : gmap Z V := ∅.

Definition key_le (p q : Z * V) : Prop := p.1 ≤ q.1.

Global Instance key_le_dec p q : Decision (key_le p q).
Proof. unfold key_le. apply _. Defined.

Definition map_iteration (m : gmap Z V) : list (Z * V) :=
  merge_sort key_le (map_to_list m).

Definition key_lt (p q : Z * V) : Prop := p.1 < q.1.
End std_map.

(** ** [std::list<T>::sort(comp)]

    The standard fixes the result of [sort] and not its algorithm: the
    elements are reordered so that no element is followed by one that
    [comp] puts strictly before it, and elements that [comp] does not
    order keep their relative order.  The model inserts the elements one
    by one, last first, each in front of the first element that does not
    strictly precede it.  [list_sort_unique] below shows that, for
    [PriorityCompare], every list with the two properties of the standard
    is this one. *)

Section std_list.
Context {T : Type} (comp : T → T → bool).

Fixpoint sort_insert (x : T) (l : list T) : list T :=
  match l with
  | [] => [x]
  | y :: l' => if comp y x then y :: sort_insert x l' else x :: y :: l'
  end.

Definition list_sort (l : list T) : list T := foldr sort_insert [] l.

(** The loop over a list that erases the elements satisfying [pred] and
    steps over the others. *)
Fixpoint erase_if (pred : T → bool) (l : list T) : list T :=
  match l with
  | [] => []
  | x :: l' => if pred x then erase_if pred l' else x :: erase_if pred l'
  end.
End std_list.

(** ** [class Signal] *)

Module Signal.
Section Signal.
Context {Args World Exn : Type}.
Local Abbreviation callback := (callback Args World Exn).

Record Signal : Type := mk {
  callbackId : Z;
  callbackMap : gmap Z callback
}.

(** [Signal() : callbackId(0) {}] *)
Definition new : Signal := {| callbackId := 0; callbackMap := ∅ |}.

Definition add (cb : callback) (s : Signal) : callback_id * Signal :=
  let newId := pre_increment (callbackId s) in
  (newId,
   {| callbackId := newId;
      callbackMap := map_insert newId cb (callbackMap s) |}).

Definition remove (cbId : callback_id) (s : Signal) : Signal :=
  {| callbackId := callbackId s;
     callbackMap := map_erase cbId (callbackMap s) |}.

Definition removeAll (s : Signal) : Signal :=
  {| callbackId := callbackId s;
     callbackMap := map_clear (callbackMap s) |}.

Definition dispatch (args : Args) : method Args World Exn Signal unit :=
  m ←' member callbackMap;
  for_each (map_iteration m) (λ cb, invoke cb.1 cb.2 args).

(** A client's calls that change the registry, and their execution in
    sequence.  [exec] gives the identifiers that the [add] calls
    returned, in order, and the state reached. *)
Inductive op : Type :=
  | Add (cb : callback)
  | Remove (cbId : callback_id)
  | RemoveAll.

Definition step (o : op) (s : Signal) : list callback_id * Signal :=
  match o with
  | Add cb => let '(newId, s') := add cb s in ([newId], s')
  | Remove cbId => ([], remove cbId s)
  | RemoveAll => ([], removeAll s)
  end.

Fixpoint exec (ops : list op) (s : Signal) : list callback_id * Signal :=
  match ops with
  | [] => ([], s)
  | o :: ops' =>
      let '(ids, s') := step o s in
      let '(ids', s'') := exec ops' s' in
      (ids ++ ids', s'')
  end.

Definition is_add (o : op) : bool :=
  match o with Add _ => true | _ => false end.

Fixpoint count_adds (ops : list op) : nat :=
  match ops with
  | [] => 0%nat
  | o :: ops' => ((if is_add o then 1 else 0) + count_adds ops')%nat
  end.

(** The listeners in the order in which [dispatch] visits them. *)
Definition listeners (s : Signal) : list (callback_id * callback) :=
  map_iteration (callbackMap s).

(** [n] rounds of a client that registers a listener and clears the
    registry again. *)
Fixpoint churn (cb : callback) (n : nat) : list op :=
  match n with
  | O => []
  | S n' => Add cb :: RemoveAll :: churn cb n'
  end.

(** [n] rounds of a client that registers a listener and removes it
    again under the identifier it got, on a registry whose counter stands
    at [c]. *)
Fixpoint add_remove_rounds (cb : callback) (c : Z) (n : nat) : list op :=
  match n with
  | O => []
  | S n' =>
      Add cb :: Remove (pre_increment c)
      :: add_remove_rounds cb (pre_increment c) n'
  end.

(** The identifiers of the registered listeners, oldest registration
    first: a call of [add] whose [insert] stores the callback puts its
    identifier last, [remove] takes the identifier out, [removeAll] all
    of them. *)
Definition registration_step (o : op) (s : Signal)
    (order : list callback_id) : list callback_id :=
  match o with
  | Add _ =>
      let newId := pre_increment (callbackId s) in
      match callbackMap s !! newId with
      | Some _ => order
      | None => order ++ [newId]
      end
  | Remove cbId => filter (λ i, i ≠ cbId) order
  | RemoveAll => []
  end.

Fixpoint registration_order (ops : list op) (s : Signal)
    (order : list callback_id) : list callback_id :=
  match ops with
  | [] => order
  | o :: ops' =>
      registration_order ops' (step o s).2 (registration_step o s order)
  end.
End Signal.
Arguments Signal : clear implicits.
Arguments op : clear implicits.
End Signal.

(** ** [class PrioritizedCallback] and [PriorityCompare] *)

Module PrioritizedCallback.
Section PrioritizedCallback.
Context {Args World Exn : Type}.
Local Abbreviation callback := (callback Args World Exn).

Record PrioritizedCallback : Type := mk {
  priorityCallback : callback;
  priority : Z;
  callbackId : callback_id
}.

Definition getCallback (p : PrioritizedCallback) : callback :=
  priorityCallback p.
Definition getPriority (p : PrioritizedCallback) : Z := priority p.
Definition getCallbackId (p : PrioritizedCallback) : callback_id :=
  callbackId p.
End PrioritizedCallback.
Arguments PrioritizedCallback : clear implicits.
End PrioritizedCallback.

Import PrioritizedCallback (PrioritizedCallback, getCallback, getPriority,
  getCallbackId).

Definition PriorityCompare {Args World Exn}
    (a b : PrioritizedCallback Args World Exn) : bool :=
  getPriority a >? getPriority b.

(** The order on entries by which a list is "sorted by descending
    priority": [a] may stand before [b]. *)
Definition priority_ge {Args World Exn}
    (a b : PrioritizedCallback Args World Exn) : Prop :=
  getPriority b ≤ getPriority a.

Definition has_priority {Args World Exn} (p : Z)
    (a : PrioritizedCallback Args World Exn) : Prop :=
  getPriority a = p.

Global Instance has_priority_dec {Args World Exn} p
    (a : PrioritizedCallback Args World Exn) : Decision (has_priority p a).
Proof. unfold has_priority. apply _. Defined.

(** ** [class PrioritySignal] *)

Module PrioritySignal.
Section PrioritySignal.
Context {Args World Exn : Type}.
Local Abbreviation callback := (callback Args World Exn).
Local Abbreviation PrioritizedCallback :=
  (PrioritizedCallback Args World Exn).

Record PrioritySignal : Type := mk {
  callbackId : Z;
  callbackList : list PrioritizedCallback
}.

(** The class declares no constructor, and [callbackId] has no
    initializer: a default-initialized object starts with an empty list
    and with whatever [int] its storage holds. *)
Definition default_init (indeterminate : Z) : PrioritySignal :=
  {| callbackId := indeterminate; callbackList := [] |}.

Definition add (cb : callback) (priority : Z) (s : PrioritySignal) :
    callback_id * PrioritySignal :=
  let newId := pre_increment (callbackId s) in
  (newId,
   {| callbackId := newId;
      callbackList :=
        list_sort PriorityCompare
          (callbackList s ++ [PrioritizedCallback.mk cb priority newId]) |}).

Definition remove (callbackId' : callback_id) (s : PrioritySignal) :
    PrioritySignal :=
  {| callbackId := callbackId s;
     callbackList :=
       erase_if (λ i, getCallbackId i =? callbackId') (callbackList s) |}.

Definition removeAll (s : PrioritySignal) : PrioritySignal :=
  {| callbackId := callbackId s; callbackList := [] |}.

Definition dispatch (args : Args) :
    method Args World Exn PrioritySignal unit :=
  l ←' member callbackList;
  for_each l
    (λ priorityCallback,
       invoke (getCallbackId priorityCallback)
         (getCallback priorityCallback) args).

Inductive op : Type :=
  | Add (cb : callback) (priority : Z)
  | Remove (cbId : callback_id)
  | RemoveAll.

Definition step (o : op) (s : PrioritySignal) :
    list callback_id * PrioritySignal :=
  match o with
  | Add cb priority => let '(newId, s') := add cb priority s in ([newId], s')
  | Remove cbId => ([], remove cbId s)
  | RemoveAll => ([], removeAll s)
  end.

Fixpoint exec (ops : list op) (s : PrioritySignal) :
    list callback_id * PrioritySignal :=
  match ops with
  | [] => ([], s)
  | o :: ops' =>
      let '(ids, s') := step o s in
      let '(ids', s'') := exec ops' s' in
      (ids ++ ids', s'')
  end.

Definition is_add (o : op) : bool :=
  match o with Add _ _ => true | _ => false end.

Fixpoint count_adds (ops : list op) : nat :=
  match ops with
  | [] => 0%nat
  | o :: ops' => ((if is_add o then 1 else 0) + count_adds ops')%nat
  end.

(** The listeners in the order in which [dispatch] visits them. *)
Definition listeners (s : PrioritySignal) :
    list (callback_id * callback) :=
  (λ i, (getCallbackId i, getCallback i)) <$> callbackList s.

(** The entries of the registry, oldest insertion first: [add] puts its
    entry last, [remove] takes out the entries with the identifier,
    [removeAll] all of them. *)
Definition insertion_step (o : op) (s : PrioritySignal)
    (order : list PrioritizedCallback) : list PrioritizedCallback :=
  match o with
  | Add cb priority =>
      order ++ [PrioritizedCallback.mk cb priority
                  (pre_increment (callbackId s))]
  | Remove cbId => filter (λ i, getCallbackId i ≠ cbId) order
  | RemoveAll => []
  end.

Fixpoint insertion_order (ops : list op) (s : PrioritySignal)
    (order : list PrioritizedCallback) : list PrioritizedCallback :=
  match ops with
  | [] => order
  | o :: ops' =>
      insertion_order ops' (step o s).2 (insertion_step o s order)
  end.
End PrioritySignal.
Arguments PrioritySignal : clear implicits.
Arguments op : clear implicits.
End PrioritySignal.

(** ** Callbacks of the usage example

    [Signal<int,int> onSomeEvent] of the header's usage comment: the
    listeners take two [int]s; the one of the example prints their sum.
    [World] is what has been printed so far. *)

Definition print_sum : callback (Z * Z) (list Z) unit :=
  λ '(a, b) out, Normal (out ++ [a + b]).

Definition print_product : callback (Z * Z) (list Z) unit :=
  λ '(a, b) out, Normal (out ++ [a * b]).

(** A listener that throws. *)
Definition throwing : callback (Z * Z) (list Z) unit :=
  λ _ out, Thrown tt out.

(** * Properties *)

(** ** [int] arithmetic *)

Lemma int_wrap_range z : INT_MIN ≤ int_wrap z ≤ INT_MAX.
Proof.
  unfold int_wrap, INT_MIN, INT_MAX.
  pose proof (Z.mod_pos_bound (z + 2 ^ 31) (2 ^ 32)). lia.
Qed.

Lemma int_wrap_id z : INT_MIN ≤ z ≤ INT_MAX → int_wrap z = z.
Proof.
  unfold int_wrap, INT_MIN, INT_MAX. intros Hz.
  rewrite Z.mod_small; lia.
Qed.

Lemma int_wrap_add_l a b : int_wrap (int_wrap a + b) = int_wrap (a + b).
Proof.
  unfold int_wrap. f_equal.
  replace ((a + 2 ^ 31) `mod` 2 ^ 32 - 2 ^ 31 + b + 2 ^ 31)
    with ((a + 2 ^ 31) `mod` 2 ^ 32 + b) by lia.
  rewrite Zplus_mod_idemp_l. f_equal. lia.
Qed.

Lemma pre_increment_id i : INT_MIN ≤ i < INT_MAX → pre_increment i = i + 1.
Proof. intros Hi. apply int_wrap_id. lia. Qed.

Lemma pre_increment_INT_MAX : pre_increment INT_MAX = INT_MIN.
Proof. reflexivity. Qed.

Lemma increments_S c n :
  increments c (S n) = pre_increment c :: increments (pre_increment c) n.
Proof.
  unfold increments, pre_increment. cbn [seq fmap list_fmap].
  f_equal. rewrite <-fmap_S_seq, <-list_fmap_compose.
  apply list_fmap_ext. intros _ k _. cbn.
  rewrite int_wrap_add_l. f_equal. lia.
Qed.

Lemma increments_small n :
  Z.of_nat n ≤ INT_MAX → increments 0 n = Z.of_nat <$> seq 1 n.
Proof.
  intros Hn. apply list_fmap_ext. intros i k Hk.
  apply lookup_seq in Hk as [-> Hk].
  apply int_wrap_id. unfold INT_MIN, INT_MAX in *. lia.
Qed.

Lemma increments_issued_from_one n :
  Z.of_nat n ≤ INT_MAX → issued_from_one (increments 0 n).
Proof.
  intros Hn. rewrite increments_small by done. split_and!.
  - apply (StronglySorted_fmap _ lt Z.lt); [lia|].
    generalize 1%nat. induction n as [|n IH]; intros j; cbn; constructor.
    + apply IH. lia.
    + apply Forall_forall. intros k [??]%elem_of_seq. lia.
  - intros (k & ? & [??]%elem_of_seq)%list_elem_of_fmap. lia.
  - apply (NoDup_fmap_2 _), NoDup_seq.
  - destruct n; cbn; [done|]. by intros id [= <-].
Qed.

(** ** Loops that call listeners *)

Section EffectsFacts.
Context {Args World Exn : Type}.
Local Abbreviation callback := (callback Args World Exn).
Implicit Types (args : Args) (w : World) (e : Exn) (cb : callback).
Implicit Types (l : list (callback_id * callback)).
Implicit Types (x : callback_id * callback).

Lemma for_each_fmap {S X Y} (f : X → Y) (xs : list X)
    (body : Y → method Args World Exn S unit) s w :
  for_each (f <$> xs) body s w = for_each xs (λ a, body (f a)) s w.
Proof.
  revert s w. induction xs as [|a xs IH]; intros s w; [done|].
  cbn. unfold method_bind.
  destruct (body (f a) s w) as [t s1 [[] w1|e w1]]; [|done].
  by rewrite IH.
Qed.

Lemma call_each_cons {S} id cb l args (s : S) w :
  call_each ((id, cb) :: l) args s w
  = match cb args w return run Args World Exn S unit with
    | Normal w1 =>
        let r := call_each l args s w1 in
        Run (Invoke id cb args :: calls r) (final r) (ending r)
    | Thrown e w1 => Run [Invoke id cb args] s (Throws e w1)
    end.
Proof.
  unfold call_each. cbn. unfold method_bind, invoke. cbn.
  destruct (cb args w) as [w1|e w1]; [|done].
  by destruct (for_each l _ s w1).
Qed.

Lemma call_each_final {S} l args (s : S) w :
  final (call_each l args s w) = s.
Proof.
  revert w. induction l as [|[id cb] l IH]; intros w; [done|].
  rewrite call_each_cons. destruct (cb args w) as [w1|e w1]; [|done].
  apply IH.
Qed.

Lemma call_each_returns {S} l args (s : S) w w' :
  returns_all args w l.*2 w' →
  call_each l args s w = Run (invocation_of args <$> l) s (Returns tt w').
Proof.
  revert w. induction l as [|[id cb] l IH]; intros w Hall.
  - by inv Hall.
  - inversion Hall as [|? w1 ? ? ? Hcb Hrest]; subst.
    rewrite call_each_cons, Hcb, (IH _ Hrest). done.
Qed.

Lemma call_each_throws {S} l1 x l2 args (s : S) w w1 e w' :
  returns_all args w l1.*2 w1 →
  x.2 args w1 = Thrown e w' →
  call_each (l1 ++ x :: l2) args s w
  = Run (invocation_of args <$> l1 ++ [x]) s (Throws e w').
Proof.
  revert w. induction l1 as [|[id c] l1 IH]; intros w Hall Hx.
  - inv Hall. destruct x as [id c]. simpl in Hx.
    by rewrite app_nil_l, call_each_cons, Hx.
  - inversion Hall as [|? w2 ? ? ? Hc Hrest]; subst.
    rewrite <-app_comm_cons, call_each_cons, Hc, (IH _ Hrest Hx). done.
Qed.

(** Every run of the loop is one of the two above. *)
Lemma call_each_cases l args w :
  (∃ w', returns_all args w l.*2 w')
  ∨ (∃ l1 x l2 w1 e w',
       l = l1 ++ x :: l2 ∧ returns_all args w l1.*2 w1
       ∧ x.2 args w1 = Thrown e w').
Proof.
  revert w. induction l as [|[id cb] l IH]; intros w.
  - left. eexists. constructor.
  - destruct (cb args w) as [w1|e w1] eqn:Hcb.
    + destruct (IH w1)
        as [[w' Hall]|(l1 & x & l2 & w2 & e & w' & -> & Hall & Hx)].
      * left. exists w'. by econstructor.
      * right. exists ((id, cb) :: l1), x, l2, w2, e, w'.
        split_and!; [done| |done]. by econstructor.
    + right. exists [], (id, cb), l, w, e, w1. split_and!; [done| |done].
      constructor.
Qed.

Lemma call_each_returns_inv {S} l args (s : S) w w' :
  ending (call_each l args s w) = Returns tt w' →
  returns_all args w l.*2 w'
  ∧ calls (call_each l args s w) = invocation_of args <$> l.
Proof.
  intros Hend.
  destruct (call_each_cases l args w)
    as [[w2 Hall]|(l1 & x & l2 & w2 & e & w3 & -> & Hall & Hx)].
  - rewrite (call_each_returns _ _ s _ _ Hall) in Hend |- *.
    cbn in *. by simplify_eq.
  - by rewrite (call_each_throws _ _ l2 _ s _ _ _ _ Hall Hx) in Hend.
Qed.

Lemma call_each_throws_inv {S} l args (s : S) w e w' :
  ending (call_each l args s w) = Throws e w' →
  ∃ l1 x l2 w1,
    l = l1 ++ x :: l2 ∧ returns_all args w l1.*2 w1
    ∧ x.2 args w1 = Thrown e w'
    ∧ calls (call_each l args s w) = invocation_of args <$> l1 ++ [x].
Proof.
  intros Hend.
  destruct (call_each_cases l args w)
    as [[w2 Hall]|(l1 & x & l2 & w2 & e2 & w3 & -> & Hall & Hx)].
  - by rewrite (call_each_returns _ _ s _ _ Hall) in Hend.
  - rewrite (call_each_throws _ _ l2 _ s _ _ _ _ Hall Hx) in Hend |- *.
    cbn in *. simplify_eq. by exists l1, x, l2, w2.
Qed.

(** Listeners that do not throw are all called, and the loop returns. *)
Lemma returns_all_total l args w :
  Forall (λ x, ∀ w0, ∃ w1, x.2 args w0 = Normal w1) l →
  ∃ w', returns_all args w l.*2 w'.
Proof.
  intros Hl. revert w. induction Hl as [|[id cb] l Hx Hl IH]; intros w.
  - eexists. constructor.
  - destruct (Hx w) as [w1 Hw1]. destruct (IH w1) as [w' Hw'].
    exists w'. by econstructor.
Qed.

Lemma call_each_prefix {S} l args (s : S) w :
  calls (call_each l args s w) `prefix_of` invocation_of args <$> l.
Proof.
  destruct (call_each_cases l args w)
    as [[w2 Hall]|(l1 & x & l2 & w2 & e2 & w3 & -> & Hall & Hx)].
  - by rewrite (call_each_returns _ _ s _ _ Hall).
  - rewrite (call_each_throws _ _ l2 _ s _ _ _ _ Hall Hx). cbn.
    exists (invocation_of args <$> l2).
    by rewrite !fmap_app, <-app_assoc.
Qed.
End EffectsFacts.

(** ** Lists *)

Section list_facts.
Context {A : Type}.
Implicit Types (xs : list A).

Lemma StronglySorted_filter (R : relation A) (P : A → Prop)
    `{!∀ a, Decision (P a)} xs :
  StronglySorted R xs → StronglySorted R (filter P xs).
Proof.
  induction 1 as [|a xs Hxs IH Ha]; [constructor|].
  rewrite filter_cons. case_decide; [|done].
  constructor; [done|].
  apply Forall_forall. intros b [_ Hb]%list_elem_of_filter.
  by eapply Forall_forall in Ha.
Qed.

Lemma filter_all (P : A → Prop) `{!∀ a, Decision (P a)} xs :
  Forall P xs → filter P xs = xs.
Proof.
  induction 1 as [|a xs Ha Hxs IH]; [done|].
  by rewrite filter_cons_True, IH.
Qed.

Lemma filter_comm (P Q : A → Prop)
    `{!∀ a, Decision (P a), !∀ a, Decision (Q a)} xs :
  filter P (filter Q xs) = filter Q (filter P xs).
Proof. rewrite !list_filter_filter. apply list_filter_iff. tauto. Qed.
End list_facts.

(** ** [std::map]: iteration order *)

Section std_map_facts.
Context {V : Type}.
Implicit Types (m : gmap Z V) (k : Z) (v : V) (l : list (Z * V)).

Local Instance key_le_trans : Transitive (@key_le V).
Proof. unfold key_le. intros x y z. lia. Qed.

Local Instance key_le_total : Total (@key_le V).
Proof. unfold key_le. intros x y. lia. Qed.

Lemma map_iteration_perm m : map_iteration m ≡ₚ map_to_list m.
Proof. apply merge_sort_Permutation. Qed.

Lemma elem_of_map_iteration m k v :
  (k, v) ∈ map_iteration m ↔ m !! k = Some v.
Proof. by rewrite map_iteration_perm, elem_of_map_to_list. Qed.

Lemma map_iteration_keys_NoDup m : NoDup (map_iteration m).*1.
Proof. rewrite map_iteration_perm. apply NoDup_fst_map_to_list. Qed.

Lemma elem_of_map_iteration_keys m k :
  k ∈ (map_iteration m).*1 ↔ is_Some (m !! k).
Proof.
  rewrite list_elem_of_fmap. split.
  - intros [[k' v] [-> Hin]]. apply elem_of_map_iteration in Hin. by eexists.
  - intros [v Hv]. exists (k, v). by rewrite elem_of_map_iteration.
Qed.

Lemma key_le_lt l :
  StronglySorted key_le l → NoDup l.*1 → StronglySorted key_lt l.
Proof.
  induction 1 as [|x l Hl IH Hx]; intros Hnd; [constructor|].
  rewrite fmap_cons in Hnd. apply NoDup_cons in Hnd as [Hnotin Hnd].
  constructor; [by apply IH|].
  apply Forall_forall. intros y Hy.
  eapply Forall_forall in Hx; [|done].
  assert (x.1 ≠ y.1).
  { intros Heq. apply Hnotin. rewrite Heq. by apply list_elem_of_fmap_2. }
  unfold key_le, key_lt in *. lia.
Qed.

Lemma map_iteration_sorted m : StronglySorted key_lt (map_iteration m).
Proof.
  apply key_le_lt; [|apply map_iteration_keys_NoDup].
  apply (StronglySorted_merge_sort key_le).
Qed.

Lemma map_iteration_keys_sorted m :
  StronglySorted Z.lt (map_iteration m).*1.
Proof.
  apply (StronglySorted_fmap _ key_lt Z.lt); [done|apply map_iteration_sorted].
Qed.

(** The order of iteration is the only strictly ascending arrangement of
    the pairs in the map. *)
Lemma map_iteration_unique m l :
  l ≡ₚ map_to_list m → StronglySorted key_lt l → l = map_iteration m.
Proof.
  intros Hperm Hl.
  apply (StronglySorted_unique_strong key_lt);
    [|done|apply map_iteration_sorted|by rewrite map_iteration_perm].
  unfold key_lt. intros. lia.
Qed.

Lemma map_iteration_empty : map_iteration (∅ : gmap Z V) = [].
Proof. unfold map_iteration. by rewrite map_to_list_empty. Qed.

Lemma map_iteration_insert_last m k v :
  (∀ k', is_Some (m !! k') → k' < k) →
  map_iteration (<[k:=v]> m) = map_iteration m ++ [(k, v)].
Proof.
  intros Hmax. symmetry. apply map_iteration_unique.
  - rewrite map_to_list_insert, <-map_iteration_perm.
    + by rewrite Permutation_app_comm.
    + apply eq_None_not_Some. intros Hk%Hmax. lia.
  - apply StronglySorted_app_2.
    + intros [k1 v1] x2 Hx1 ->%list_elem_of_singleton.
      apply elem_of_map_iteration in Hx1. apply Hmax. by eexists.
    + apply map_iteration_sorted.
    + repeat constructor.
Qed.

Lemma map_iteration_delete m k :
  map_iteration (delete k m) = filter (λ x, x.1 ≠ k) (map_iteration m).
Proof.
  symmetry. apply map_iteration_unique.
  - rewrite map_iteration_perm. destruct (m !! k) as [v|] eqn:Hk.
    + rewrite <-(map_to_list_delete m k v Hk).
      rewrite filter_cons_False by (cbn; tauto).
      apply reflexive_eq, filter_all, Forall_forall.
      intros [k' v'] Hin%elem_of_map_to_list Heq. cbn in Heq. subst k'.
      by rewrite lookup_delete_eq in Hin.
    + rewrite delete_id by done.
      apply reflexive_eq, filter_all, Forall_forall.
      intros [k' v'] Hin%elem_of_map_to_list Heq. cbn in Heq. congruence.
  - apply StronglySorted_filter, map_iteration_sorted.
Qed.
End std_map_facts.

(** ** [std::list::sort] with [PriorityCompare], and the erasing loop *)

Section std_list_facts.
Context {Args World Exn : Type}.
Local Abbreviation entry := (PrioritizedCallback Args World Exn).
Implicit Types (a b : entry) (l : list entry) (p : Z).

Lemma PriorityCompare_spec a b :
  PriorityCompare a b = true ↔ getPriority b < getPriority a.
Proof. unfold PriorityCompare. rewrite Z.gtb_ltb. apply Z.ltb_lt. Qed.

Lemma sort_insert_perm a l : sort_insert PriorityCompare a l ≡ₚ a :: l.
Proof.
  induction l as [|b l IH]; [done|]. cbn.
  destruct (PriorityCompare b a); [|done].
  rewrite IH. apply Permutation_swap.
Qed.

Lemma list_sort_perm l : list_sort PriorityCompare l ≡ₚ l.
Proof.
  induction l as [|a l IH]; [done|]. cbn.
  by rewrite sort_insert_perm, IH.
Qed.

Lemma sort_insert_sorted a l :
  StronglySorted priority_ge l →
  StronglySorted priority_ge (sort_insert PriorityCompare a l).
Proof.
  induction 1 as [|b l Hl IH Hb]; [repeat constructor|]. cbn.
  destruct (PriorityCompare b a) eqn:Hcmp.
  - apply PriorityCompare_spec in Hcmp.
    constructor; [done|]. rewrite sort_insert_perm.
    constructor; [unfold priority_ge; lia|done].
  - assert (priority_ge a b) as Hab.
    { unfold priority_ge. destruct (decide (getPriority b ≤ getPriority a));
        [done|]. rewrite <-not_true_iff_false, PriorityCompare_spec in Hcmp.
      lia. }
    constructor; [by constructor|].
    constructor; [done|].
    eapply Forall_impl; [done|]. unfold priority_ge in *. intros. lia.
Qed.

Lemma list_sort_sorted l :
  StronglySorted priority_ge (list_sort PriorityCompare l).
Proof.
  induction l as [|a l IH]; [constructor|]. by apply sort_insert_sorted.
Qed.

(** Stability: among the entries of one priority, [sort] changes
    nothing. *)
Lemma sort_insert_filter a l p :
  filter (has_priority p) (sort_insert PriorityCompare a l)
  = filter (has_priority p) (a :: l).
Proof.
  induction l as [|b l IH]; [done|]. cbn [sort_insert].
  destruct (PriorityCompare b a) eqn:Hcmp; [|done].
  apply PriorityCompare_spec in Hcmp.
  rewrite (filter_cons _ b), IH, !filter_cons.
  unfold has_priority. repeat case_decide; try done; lia.
Qed.

Lemma list_sort_filter l p :
  filter (has_priority p) (list_sort PriorityCompare l)
  = filter (has_priority p) l.
Proof.
  induction l as [|a l IH]; [done|]. cbn [list_sort foldr].
  fold (list_sort (@PriorityCompare Args World Exn) l).
  by rewrite sort_insert_filter, !filter_cons, IH.
Qed.

(** Two lists in descending priority with the same entries, in the same
    order, at each priority are the same list. *)
Lemma sorted_stable_unique l1 l2 :
  StronglySorted priority_ge l1 →
  StronglySorted priority_ge l2 →
  (∀ p, filter (has_priority p) l1 = filter (has_priority p) l2) →
  l1 = l2.
Proof.
  intros Hl1. revert l2.
  induction Hl1 as [|a l1 Hl1 IH Ha]; intros l2 Hl2 Hfilter.
  - destruct l2 as [|b l2]; [done|].
    specialize (Hfilter (getPriority b)).
    by rewrite filter_nil, filter_cons_True in Hfilter.
  - destruct Hl2 as [|b l2 Hl2 Hb].
    { specialize (Hfilter (getPriority a)).
      by rewrite filter_nil, filter_cons_True in Hfilter. }
    assert (a = b) as <-.
    { destruct (decide (getPriority a = getPriority b)) as [Heq|Hne].
      - specialize (Hfilter (getPriority a)).
        rewrite !filter_cons_True in Hfilter by done. congruence.
      - pose proof (Hfilter (getPriority a)) as Hfa.
        pose proof (Hfilter (getPriority b)) as Hfb.
        rewrite filter_cons_True, filter_cons_False in Hfa
          by (unfold has_priority; congruence).
        rewrite filter_cons_False, filter_cons_True in Hfb
          by (unfold has_priority; congruence).
        assert (a ∈ l2) as Hin2.
        { eapply (proj1 (list_elem_of_filter _ _ _)).
          rewrite <-Hfa. left. }
        assert (b ∈ l1) as Hin1.
        { eapply (proj1 (list_elem_of_filter _ _ _)).
          rewrite Hfb. left. }
        eapply Forall_forall in Ha; [|done].
        eapply Forall_forall in Hb; [|done].
        unfold priority_ge in *. lia. }
    f_equal. apply IH; [done|]. intros p. specialize (Hfilter p).
    rewrite !filter_cons in Hfilter. case_decide; congruence.
Qed.

(** The contract of [sort] leaves one result only. *)
Lemma list_sort_unique l l' :
  StronglySorted priority_ge l' →
  (∀ p, filter (has_priority p) l' = filter (has_priority p) l) →
  l' = list_sort PriorityCompare l.
Proof.
  intros Hl' Hfilter. apply sorted_stable_unique;
    [done|apply list_sort_sorted|].
  intros p. by rewrite list_sort_filter.
Qed.

Lemma erase_if_filter id l :
  erase_if (λ i, getCallbackId i =? id) l
  = filter (λ i, getCallbackId i ≠ id) l.
Proof.
  induction l as [|a l IH]; [done|]. cbn [erase_if]. rewrite filter_cons, IH.
  destruct (Z.eqb_spec (getCallbackId a) id); by case_decide.
Qed.
End std_list_facts.

(** ** [Signal] *)

Section SignalFacts.
Context {Args World Exn : Type}.
Local Abbreviation callback := (callback Args World Exn).
Local Abbreviation Signal := (Signal.Signal Args World Exn).
Local Abbreviation op := (Signal.op Args World Exn).
Implicit Types (s : Signal) (ops : list op) (o : op) (cb : callback).
Implicit Types (args : Args) (w : World) (id : callback_id).

Import Signal.

Lemma Signal_dispatch_call_each args s w :
  dispatch args s w = call_each (listeners s) args s w.
Proof.
  unfold dispatch, method_bind, member, listeners, call_each. cbn.
  by destruct (for_each _ _ s w).
Qed.

Lemma Signal_exec_cons o ops s :
  exec (o :: ops) s
  = ((step o s).1 ++ (exec ops (step o s).2).1, (exec ops (step o s).2).2).
Proof.
  cbn [exec]. destruct (step o s) as [ids s']. cbn [fst snd].
  by destruct (exec ops s').
Qed.

Lemma Signal_exec_app ops1 ops2 s :
  exec (ops1 ++ ops2) s
  = ((exec ops1 s).1 ++ (exec ops2 (exec ops1 s).2).1,
     (exec ops2 (exec ops1 s).2).2).
Proof.
  revert s. induction ops1 as [|o ops1 IH]; intros s.
  - cbn. by destruct (exec ops2 s).
  - rewrite <-app_comm_cons, !Signal_exec_cons, IH. cbn.
    by rewrite app_assoc.
Qed.

Lemma Signal_exec_app_ids ops1 ops2 s :
  (exec (ops1 ++ ops2) s).1
  = (exec ops1 s).1 ++ (exec ops2 (exec ops1 s).2).1.
Proof. by rewrite Signal_exec_app. Qed.

Lemma Signal_exec_app_state ops1 ops2 s :
  (exec (ops1 ++ ops2) s).2 = (exec ops2 (exec ops1 s).2).2.
Proof. by rewrite Signal_exec_app. Qed.

(** The [k]-th [add] returns the [k]-th increment of the counter. *)
Lemma Signal_exec_ids ops s :
  (exec ops s).1 = increments (callbackId s) (count_adds ops).
Proof.
  revert s. induction ops as [|o ops IH]; intros s; [done|].
  rewrite Signal_exec_cons. cbn [fst count_adds].
  destruct o as [cb| |]; cbn [is_add Nat.add]; rewrite IH.
  - by rewrite increments_S.
  - done.
  - done.
Qed.

Lemma Signal_exec_callbackId ops s :
  INT_MIN ≤ callbackId s ≤ INT_MAX →
  callbackId (exec ops s).2
  = int_wrap (callbackId s + Z.of_nat (count_adds ops)).
Proof.
  revert s. induction ops as [|o ops IH]; intros s Hs.
  - cbn. rewrite Z.add_0_r. by rewrite int_wrap_id.
  - rewrite Signal_exec_cons. cbn [snd count_adds].
    destruct o as [cb| |]; cbn [is_add Nat.add].
    + rewrite IH by apply int_wrap_range. cbn. unfold pre_increment.
      rewrite int_wrap_add_l. f_equal. lia.
    + by rewrite IH.
    + by rewrite IH.
Qed.

Lemma invocation_ids args (l : list (callback_id * callback)) :
  inv_id <$> (invocation_of args <$> l) = l.*1.
Proof. by rewrite <-list_fmap_compose. Qed.

Lemma Signal_dispatch_ids_registered args s w id :
  id ∈ inv_id <$> calls (dispatch args s w) → is_Some (callbackMap s !! id).
Proof.
  rewrite Signal_dispatch_call_each. intros Hin.
  apply elem_of_map_iteration_keys. rewrite <-(invocation_ids args).
  destruct (call_each_prefix (listeners s) args s w) as [rest Hrest].
  unfold listeners in Hrest. rewrite Hrest, fmap_app.
  apply elem_of_app. by left.
Qed.

Lemma Signal_absent_preserved ops s id :
  callbackMap s !! id = None →
  id ∉ (exec ops s).1 →
  callbackMap (exec ops s).2 !! id = None.
Proof.
  revert s. induction ops as [|o ops IH]; intros s Hs Hid; [done|].
  rewrite Signal_exec_cons in Hid |- *. cbn [fst snd] in *.
  apply not_elem_of_app in Hid as [Hid1 Hid2]. apply IH; [|done].
  destruct o as [cb|k|]; cbn in *.
  - apply not_elem_of_cons in Hid1 as [Hne _]. unfold map_insert.
    destruct (callbackMap s !! pre_increment (callbackId s)); [done|].
    by rewrite lookup_insert_ne.
  - unfold map_erase. rewrite lookup_delete. by case_decide.
  - done.
Qed.

Lemma fmap_fst_filter_key {V} k (l : list (Z * V)) :
  (filter (λ x, x.1 ≠ k) l).*1 = filter (λ i, i ≠ k) l.*1.
Proof.
  induction l as [|x l IH]; [done|].
  rewrite fmap_cons, !filter_cons. cbn. case_decide; [|done].
  by rewrite fmap_cons, IH.
Qed.

(** As long as the counter does not wrap around, the map iterates in
    the order of registration. *)
Lemma Signal_registration_order_inv ops s order :
  INT_MIN ≤ callbackId s →
  callbackId s + Z.of_nat (count_adds ops) ≤ INT_MAX →
  (∀ k, is_Some (callbackMap s !! k) → k ≤ callbackId s) →
  (listeners s).*1 = order →
  (listeners (exec ops s).2).*1 = registration_order ops s order.
Proof.
  revert s order.
  induction ops as [|o ops IH]; intros s order Hlo Hhi Hkeys Horder; [done|].
  rewrite Signal_exec_cons. cbn [snd registration_order].
  cbn [count_adds] in Hhi.
  destruct o as [cb|k|]; cbn [is_add Nat.add] in Hhi.
  - assert (pre_increment (callbackId s) = callbackId s + 1) as Hnew
      by (apply pre_increment_id; lia).
    assert (callbackMap s !! (callbackId s + 1) = None) as Hfresh.
    { apply eq_None_not_Some. intros Hk%Hkeys. lia. }
    cbn [step add snd fst registration_step]. rewrite Hnew, Hfresh.
    apply IH; cbn [callbackId callbackMap]; unfold map_insert;
      rewrite ?Hfresh.
    + lia.
    + lia.
    + intros k. rewrite lookup_insert. case_decide; [lia|].
      intros Hk%Hkeys. lia.
    + unfold listeners, add. cbn [callbackMap snd].
      rewrite ?Hnew, ?Hfresh, map_iteration_insert_last.
      * rewrite fmap_app. by rewrite <-Horder.
      * intros k Hk%Hkeys. lia.
  - cbn [step snd registration_step].
    apply IH; cbn [remove callbackId callbackMap]; unfold map_erase.
    + done.
    + lia.
    + intros k'. rewrite lookup_delete. case_decide; [by intros []|].
      apply Hkeys.
    + unfold listeners, remove, map_erase. cbn [callbackMap].
      by rewrite map_iteration_delete, fmap_fst_filter_key, <-Horder.
  - cbn [step snd registration_step].
    apply IH; cbn [removeAll callbackId callbackMap]; unfold map_clear.
    + done.
    + lia.
    + intros k. rewrite lookup_empty. by intros [].
    + unfold listeners, removeAll, map_clear. cbn [callbackMap].
      by rewrite map_iteration_empty.
Qed.

Lemma Signal_registration_order_app ops1 ops2 s order :
  registration_order (ops1 ++ ops2) s order
  = registration_order ops2 (exec ops1 s).2 (registration_order ops1 s order).
Proof.
  revert s order. induction ops1 as [|o ops1 IH]; intros s order; [done|].
  rewrite <-app_comm_cons, Signal_exec_cons. cbn [registration_order snd].
  apply IH.
Qed.

Lemma Signal_count_adds_churn cb n : count_adds (churn cb n) = n.
Proof. induction n as [|n IH]; [done|]. cbn. by rewrite IH. Qed.

Lemma Signal_exec_churn_map cb n s :
  callbackMap s = ∅ → callbackMap (exec (churn cb n) s).2 = ∅.
Proof.
  revert s. induction n as [|n IH]; intros s Hs; [done|].
  cbn [churn]. rewrite !Signal_exec_cons. cbn [snd]. by apply IH.
Qed.

Lemma Signal_registration_churn cb n s :
  registration_order (churn cb n) s [] = [].
Proof.
  revert s. induction n as [|n IH]; intros s; [done|].
  cbn [churn registration_order]. cbn [registration_step]. apply IH.
Qed.

(** The registry after [n] such rounds on a fresh [Signal]. *)
Lemma Signal_exec_churn cb n :
  (exec (churn cb n) new).2
  = {| callbackId := int_wrap (Z.of_nat n); callbackMap := ∅ |}.
Proof.
  pose proof (Signal_exec_callbackId (churn cb n) new) as Hid.
  pose proof (Signal_exec_churn_map cb n new eq_refl) as Hmap.
  rewrite Signal_count_adds_churn in Hid.
  destruct (exec (churn cb n) new).2 as [c m]. cbn in *.
  rewrite Hid, Hmap by done. done.
Qed.
End SignalFacts.

(** ** [PrioritySignal] *)

Section PrioritySignalFacts.
Context {Args World Exn : Type}.
Local Abbreviation callback := (callback Args World Exn).
Local Abbreviation entry := (PrioritizedCallback Args World Exn).
Local Abbreviation PrioritySignal :=
  (PrioritySignal.PrioritySignal Args World Exn).
Local Abbreviation op := (PrioritySignal.op Args World Exn).
Implicit Types (s : PrioritySignal) (ops : list op) (o : op) (cb : callback).
Implicit Types (args : Args) (w : World) (id : callback_id).
Implicit Types (order : list entry).

Import PrioritySignal.

Lemma PrioritySignal_dispatch_call_each args s w :
  dispatch args s w = call_each (listeners s) args s w.
Proof.
  unfold dispatch, method_bind, member, listeners, call_each.
  rewrite for_each_fmap. cbn. by destruct (for_each _ _ s w).
Qed.

Lemma PrioritySignal_exec_cons o ops s :
  exec (o :: ops) s
  = ((step o s).1 ++ (exec ops (step o s).2).1, (exec ops (step o s).2).2).
Proof.
  cbn [exec]. destruct (step o s) as [ids s']. cbn [fst snd].
  by destruct (exec ops s').
Qed.

Lemma PrioritySignal_exec_ids ops s :
  (exec ops s).1 = increments (callbackId s) (count_adds ops).
Proof.
  revert s. induction ops as [|o ops IH]; intros s; [done|].
  rewrite PrioritySignal_exec_cons. cbn [fst count_adds].
  destruct o as [cb p| |]; cbn [is_add Nat.add]; rewrite IH.
  - by rewrite increments_S.
  - done.
  - done.
Qed.

Lemma PrioritySignal_add_eq cb (priority : Z) (c : Z) (l : list entry) :
  add cb priority {| callbackId := c; callbackList := l |}
  = (pre_increment c,
     {| callbackId := pre_increment c;
        callbackList :=
          list_sort PriorityCompare
            (l ++ [PrioritizedCallback.mk cb priority (pre_increment c)]) |}).
Proof. reflexivity. Qed.

Lemma PrioritySignal_listener_ids s :
  (listeners s).*1 = getCallbackId <$> callbackList s.
Proof. unfold listeners. by rewrite <-list_fmap_compose. Qed.

Lemma PrioritySignal_dispatch_ids_registered args s w id :
  id ∈ inv_id <$> calls (dispatch args s w) →
  id ∈ getCallbackId <$> callbackList s.
Proof.
  rewrite PrioritySignal_dispatch_call_each. intros Hin.
  rewrite <-PrioritySignal_listener_ids, <-(invocation_ids args).
  destruct (call_each_prefix (listeners s) args s w) as [rest Hrest].
  rewrite Hrest, fmap_app. apply elem_of_app. by left.
Qed.

Lemma PrioritySignal_remove_list id s :
  callbackList (remove id s)
  = filter (λ i, getCallbackId i ≠ id) (callbackList s).
Proof. apply erase_if_filter. Qed.

Lemma PrioritySignal_absent_preserved ops s id :
  id ∉ getCallbackId <$> callbackList s →
  id ∉ (exec ops s).1 →
  id ∉ getCallbackId <$> callbackList (exec ops s).2.
Proof.
  revert s. induction ops as [|o ops IH]; intros s Hs Hid; [done|].
  rewrite PrioritySignal_exec_cons in Hid |- *. cbn [fst snd] in *.
  apply not_elem_of_app in Hid as [Hid1 Hid2]. apply IH; [|done].
  destruct o as [cb p|k|]; cbn [step snd fst] in *.
  - apply not_elem_of_cons in Hid1 as [Hne _].
    cbn [add snd callbackList]. rewrite list_sort_perm, fmap_app.
    apply not_elem_of_app. split; [done|]. cbn.
    apply not_elem_of_cons. split; [done|apply not_elem_of_nil].
  - rewrite PrioritySignal_remove_list.
    intros (i & -> & [_ Hi]%list_elem_of_filter)%list_elem_of_fmap.
    apply Hs. by apply list_elem_of_fmap_2.
  - cbn. apply not_elem_of_nil.
Qed.

(** The list is the stable sort, by descending priority, of the entries
    in their order of insertion. *)
Lemma PrioritySignal_order_inv ops s order :
  StronglySorted priority_ge (callbackList s) →
  (∀ p, filter (has_priority p) (callbackList s)
        = filter (has_priority p) order) →
  callbackList s ≡ₚ order →
  let l := callbackList (exec ops s).2 in
  StronglySorted priority_ge l
  ∧ (∀ p, filter (has_priority p) l
          = filter (has_priority p) (insertion_order ops s order))
  ∧ l ≡ₚ insertion_order ops s order.
Proof.
  revert s order.
  induction ops as [|o ops IH]; intros s order Hsorted Hstable Hperm; [done|].
  cbn zeta. rewrite PrioritySignal_exec_cons. cbn [snd insertion_order].
  apply IH; destruct o as [cb p'|k|];
    cbn [step snd fst add insertion_step callbackList].
  - apply list_sort_sorted.
  - rewrite PrioritySignal_remove_list.
    by apply StronglySorted_filter.
  - constructor.
  - intros p. by rewrite list_sort_filter, !filter_app, Hstable.
  - intros p. rewrite PrioritySignal_remove_list.
    by rewrite !(filter_comm (has_priority p)), Hstable.
  - done.
  - by rewrite list_sort_perm, Hperm.
  - rewrite PrioritySignal_remove_list. by rewrite Hperm.
  - done.
Qed.
End PrioritySignalFacts.

(** * The properties of the registries *)

Section Claims.
Context {Args World Exn : Type}.
Local Abbreviation callback := (callback Args World Exn).
Local Abbreviation Signal := (Signal.Signal Args World Exn).
Local Abbreviation PrioritySignal :=
  (PrioritySignal.PrioritySignal Args World Exn).
Implicit Types (args : Args) (w : World) (id : callback_id) (e : Exn).
Implicit Types (cb : callback) (x : callback_id * callback).

(** C1, amended.  On a [Signal], and on a [PrioritySignal] whose counter
    holds 0 before the first [add]: whatever [remove] and [removeAll]
    calls are interleaved, as long as at most [INT_MAX] = 2^31 - 1 [add]
    calls are made, the identifiers returned are 1, 2, 3, ... in the
    order of the calls; so they are strictly increasing, never 0, never
    repeated, and the first is 1. *)
Theorem add_identifiers_count_from_one :
  (∀ ops : list (Signal.op Args World Exn),
     Z.of_nat (Signal.count_adds ops) ≤ INT_MAX →
     let ids := (Signal.exec ops Signal.new).1 in
     ids = Z.of_nat <$> seq 1 (Signal.count_adds ops)
     ∧ issued_from_one ids)
  ∧ (∀ ops : list (PrioritySignal.op Args World Exn),
       Z.of_nat (PrioritySignal.count_adds ops) ≤ INT_MAX →
       let ids :=
         (PrioritySignal.exec ops (PrioritySignal.default_init 0)).1 in
       ids = Z.of_nat <$> seq 1 (PrioritySignal.count_adds ops)
       ∧ issued_from_one ids).
Proof.
  split; intros ops Hn; cbn zeta.
  - rewrite Signal_exec_ids. cbn [Signal.callbackId Signal.new].
    split; [by apply increments_small|by apply increments_issued_from_one].
  - rewrite PrioritySignal_exec_ids.
    cbn [PrioritySignal.callbackId PrioritySignal.default_init].
    split; [by apply increments_small|by apply increments_issued_from_one].
Qed.

(** C2.  In every state that [add], [remove] and [removeAll] calls lead
    to from a new [PrioritySignal], the list is in descending priority,
    and the entries of any one priority stand in the order in which they
    were inserted; the list holds the inserted entries that were not
    removed, and nothing else. *)
Theorem priority_list_sorted_and_stable
    (indeterminate : Z) (ops : list (PrioritySignal.op Args World Exn)) :
  let s0 := PrioritySignal.default_init indeterminate in
  let l := PrioritySignal.callbackList (PrioritySignal.exec ops s0).2 in
  let inserted := PrioritySignal.insertion_order ops s0 [] in
  StronglySorted priority_ge l
  ∧ (∀ p, filter (has_priority p) l = filter (has_priority p) inserted)
  ∧ l ≡ₚ inserted.
Proof.
  apply PrioritySignal_order_inv; cbn; [constructor|done|done].
Qed.

(** C3.  [Signal::dispatch] on a registry whose listeners do not throw
    returns; and a [Signal::dispatch] that returns has called every
    registered listener exactly once, with the arguments of the dispatch,
    and has made no other call.  This for any number of listeners, none
    included. *)
Theorem dispatch_calls_each_listener_once (s : Signal) args w :
  let made := calls (Signal.dispatch args s w) in
  ((∀ id cb, Signal.callbackMap s !! id = Some cb →
             ∀ w0, ∃ w1, cb args w0 = Normal w1) →
   ∃ w', ending (Signal.dispatch args s w) = Returns tt w')
  ∧ (∀ w', ending (Signal.dispatch args s w) = Returns tt w' →
       made ≡ₚ invocation_of args <$> map_to_list (Signal.callbackMap s)
       ∧ NoDup (inv_id <$> made)
       ∧ length made = size (Signal.callbackMap s)
       ∧ (∀ id cb, Signal.callbackMap s !! id = Some cb
                   ↔ Invoke id cb args ∈ made)
       ∧ (∀ c, c ∈ made → inv_args c = args)
       ∧ returns_all args w (Signal.listeners s).*2 w').
Proof.
  cbn zeta. rewrite Signal_dispatch_call_each. split.
  - intros Hreturn.
    destruct (returns_all_total (Signal.listeners s) args w) as [w' Hall].
    { apply Forall_forall. intros [id cb] Hin%elem_of_map_iteration.
      by apply (Hreturn id). }
    exists w'. by rewrite (call_each_returns _ _ s _ _ Hall).
  - intros w' [Hall Hcalls]%call_each_returns_inv. rewrite Hcalls.
    unfold Signal.listeners. split_and!.
    + by rewrite map_iteration_perm.
    + rewrite invocation_ids. apply map_iteration_keys_NoDup.
    + by rewrite length_fmap, map_iteration_perm, length_map_to_list.
    + intros id cb. rewrite <-elem_of_map_iteration, list_elem_of_fmap. split.
      * intros Hin. by exists (id, cb).
      * intros ([id' cb'] & [= -> ->] & Hin). done.
    + intros c ([id' cb'] & -> & _)%list_elem_of_fmap. done.
    + done.
Qed.

(** C4.  After [add] with priorities 5, 1, 10 and 1, in this order, on a
    new [PrioritySignal], [dispatch] calls the listener added with
    priority 10, then the one added with 5, then the two added with 1,
    the earlier one first.  (A listener that throws ends the dispatch
    there, so in general the calls made are the beginning of this
    sequence; they are all of it when [dispatch] returns.) *)
Theorem priority_dispatch_order
    (indeterminate : Z) (c1 c2 c3 c4 : callback) args w :
  let s0 := PrioritySignal.default_init indeterminate in
  let r1 := PrioritySignal.add c1 5 s0 in
  let r2 := PrioritySignal.add c2 1 r1.2 in
  let r3 := PrioritySignal.add c3 10 r2.2 in
  let r4 := PrioritySignal.add c4 1 r3.2 in
  let order :=
    [Invoke r3.1 c3 args; Invoke r1.1 c1 args;
     Invoke r2.1 c2 args; Invoke r4.1 c4 args] in
  let made := calls (PrioritySignal.dispatch args r4.2 w) in
  made `prefix_of` order
  ∧ (∀ w', ending (PrioritySignal.dispatch args r4.2 w) = Returns tt w' →
           made = order).
Proof.
  intros s0 r1 r2 r3 r4 order made. subst made order r4 r3 r2 r1 s0.
  unfold PrioritySignal.default_init.
  rewrite PrioritySignal_add_eq. cbn [fst snd].
  generalize (pre_increment indeterminate). intros i1.
  rewrite PrioritySignal_add_eq. cbn [fst snd].
  generalize (pre_increment i1). intros i2.
  rewrite PrioritySignal_add_eq. cbn [fst snd].
  generalize (pre_increment i2). intros i3.
  rewrite PrioritySignal_add_eq. cbn [fst snd].
  generalize (pre_increment i3). intros i4.
  rewrite PrioritySignal_dispatch_call_each.
  set (l := [(i3, c3); (i1, c1); (i2, c2); (i4, c4)]).
  assert (PrioritySignal.listeners
            {| PrioritySignal.callbackId := i4;
               PrioritySignal.callbackList :=
                 list_sort PriorityCompare
                   (list_sort PriorityCompare
                      (list_sort PriorityCompare
                         (list_sort PriorityCompare
                            ([] ++ [PrioritizedCallback.mk c1 5 i1])
                          ++ [PrioritizedCallback.mk c2 1 i2])
                       ++ [PrioritizedCallback.mk c3 10 i3])
                    ++ [PrioritizedCallback.mk c4 1 i4]) |}
          = l) as -> by reflexivity.
  change (invocation_of args <$> l) with
    [Invoke i3 c3 args; Invoke i1 c1 args; Invoke i2 c2 args;
     Invoke i4 c4 args] in *.
  split.
  - apply (call_each_prefix l).
  - intros w' [_ Hcalls]%call_each_returns_inv. by rewrite Hcalls.
Qed.

(** C5.  Once [remove(id)] has run, no [dispatch] calls a listener under
    [id], whatever calls come in between, until an [add] hands out the
    same identifier again; and [remove(id)] on a registry that holds
    nothing under [id] leaves the registry as it is.  Both for [Signal]
    and for [PrioritySignal]. *)
Theorem removed_listener_is_not_called :
  (∀ (s : Signal) id ops args w,
     let r := Signal.exec ops (Signal.remove id s) in
     id ∉ r.1 → id ∉ inv_id <$> calls (Signal.dispatch args r.2 w))
  ∧ (∀ (s : Signal) id,
       Signal.callbackMap s !! id = None → Signal.remove id s = s)
  ∧ (∀ (s : PrioritySignal) id ops args w,
       let r := PrioritySignal.exec ops (PrioritySignal.remove id s) in
       id ∉ r.1 → id ∉ inv_id <$> calls (PrioritySignal.dispatch args r.2 w))
  ∧ (∀ (s : PrioritySignal) id,
       id ∉ getCallbackId <$> PrioritySignal.callbackList s →
       PrioritySignal.remove id s = s).
Proof.
  split_and!.
  - intros s id ops args w r Hid Hin.
    apply Signal_dispatch_ids_registered in Hin as [cb Hcb].
    subst r. rewrite Signal_absent_preserved in Hcb; [done| |done].
    apply lookup_delete_eq.
  - intros [c m] id Hid. unfold Signal.remove, map_erase. cbn in *.
    by rewrite delete_id.
  - intros s id ops args w r Hid Hin.
    apply PrioritySignal_dispatch_ids_registered in Hin. subst r.
    eapply PrioritySignal_absent_preserved; [|done..].
    rewrite PrioritySignal_remove_list.
    intros (i & Heq & [Hi _]%list_elem_of_filter)%list_elem_of_fmap.
    by apply Hi.
  - intros s id Hid.
    pose proof (PrioritySignal_remove_list id s) as Hl.
    rewrite filter_all in Hl.
    + destruct s as [c l]. unfold PrioritySignal.remove in *. cbn in *.
      by rewrite Hl.
    + apply Forall_forall. intros i Hi Heq. apply Hid. rewrite <-Heq.
      by apply list_elem_of_fmap_2.
Qed.

(** C6.  When, in a [dispatch], the listeners [l1] at the front of the
    dispatch order return and the next one, [x], throws [e]: the
    dispatch ends by throwing [e], it has called the listeners of [l1]
    once each and then [x], and it has called none of the listeners
    [l2] behind [x].  Both for [Signal] and for [PrioritySignal]. *)
Theorem dispatch_stops_at_first_throw :
  (∀ (s : Signal) args w l1 x l2 w1 e w',
     Signal.listeners s = l1 ++ x :: l2 →
     returns_all args w l1.*2 w1 →
     x.2 args w1 = Thrown e w' →
     Signal.dispatch args s w
     = Run (invocation_of args <$> l1 ++ [x]) s (Throws e w'))
  ∧ (∀ (s : PrioritySignal) args w l1 x l2 w1 e w',
       PrioritySignal.listeners s = l1 ++ x :: l2 →
       returns_all args w l1.*2 w1 →
       x.2 args w1 = Thrown e w' →
       PrioritySignal.dispatch args s w
       = Run (invocation_of args <$> l1 ++ [x]) s (Throws e w')).
Proof.
  split; intros s args w l1 x l2 w1 e w' Hl Hall Hx.
  - rewrite Signal_dispatch_call_each, Hl. by eapply call_each_throws.
  - rewrite PrioritySignal_dispatch_call_each, Hl.
    by eapply call_each_throws.
Qed.

(** C7.  [removeAll] twice in a row leaves the registry in the state
    that one [removeAll] leaves it in.  Both for [Signal] and for
    [PrioritySignal]. *)
Theorem removeAll_idempotent :
  (∀ s : Signal, Signal.removeAll (Signal.removeAll s) = Signal.removeAll s)
  ∧ (∀ s : PrioritySignal,
       PrioritySignal.removeAll (PrioritySignal.removeAll s)
       = PrioritySignal.removeAll s).
Proof. split; intros s; reflexivity. Qed.

(** C8, amended.  [Signal::dispatch] calls the listeners in strictly
    ascending order of their identifiers, in every state.  On a [Signal]
    that has seen at most [INT_MAX] = 2^31 - 1 [add] calls this is the
    order in which the listeners were registered.  A second [dispatch],
    with no call of [add], [remove] or [removeAll] in between, goes
    through the same listeners in the same order. *)
Theorem dispatch_in_ascending_identifier_order :
  (∀ (s : Signal) args w,
     StronglySorted Z.lt (inv_id <$> calls (Signal.dispatch args s w)))
  ∧ (∀ ops : list (Signal.op Args World Exn),
       Z.of_nat (Signal.count_adds ops) ≤ INT_MAX →
       let s := (Signal.exec ops Signal.new).2 in
       let registered := Signal.registration_order ops Signal.new [] in
       (Signal.listeners s).*1 = registered
       ∧ (∀ args w w',
            ending (Signal.dispatch args s w) = Returns tt w' →
            inv_id <$> calls (Signal.dispatch args s w) = registered))
  ∧ (∀ (s : Signal) args1 w1 w1' args2 w2 w2',
       let r1 := Signal.dispatch args1 s w1 in
       let r2 := Signal.dispatch args2 (final r1) w2 in
       ending r1 = Returns tt w1' →
       ending r2 = Returns tt w2' →
       inv_id <$> calls r2 = inv_id <$> calls r1
       ∧ inv_cb <$> calls r2 = inv_cb <$> calls r1).
Proof.
  split_and!.
  - intros s args w. rewrite Signal_dispatch_call_each.
    destruct (call_each_prefix (Signal.listeners s) args s w) as [k Hk].
    apply (f_equal (fmap inv_id)) in Hk.
    rewrite invocation_ids, fmap_app in Hk.
    eapply StronglySorted_app_1_l. rewrite <-Hk.
    apply map_iteration_keys_sorted.
  - intros ops Hn s registered.
    assert ((Signal.listeners s).*1 = registered) as Hreg.
    { apply Signal_registration_order_inv; cbn.
      - unfold INT_MIN. lia.
      - lia.
      - intros k. rewrite lookup_empty. by intros [].
      - unfold Signal.listeners. cbn. by rewrite map_iteration_empty. }
    split; [done|]. intros args w w'.
    rewrite Signal_dispatch_call_each.
    intros [_ ->]%call_each_returns_inv. by rewrite invocation_ids.
  - intros s args1 w1 w1' args2 w2 w2' r1 r2. subst r1 r2.
    rewrite !Signal_dispatch_call_each, call_each_final.
    intros [_ ->]%call_each_returns_inv [_ ->]%call_each_returns_inv.
    by rewrite <-!list_fmap_compose.
Qed.

(** C9.  [PrioritySignal::remove(id)] takes out of the list the entries
    whose identifier is [id], and only those: what remains is the list
    as it was, in the same order, without them.  The counter is not
    touched. *)
Theorem priority_remove_erases_matching_entries (s : PrioritySignal) id :
  let l := PrioritySignal.callbackList s in
  let l' := PrioritySignal.callbackList (PrioritySignal.remove id s) in
  l' = filter (λ i, getCallbackId i ≠ id) l
  ∧ l' `sublist_of` l
  ∧ (∀ i, i ∈ l' ↔ i ∈ l ∧ getCallbackId i ≠ id)
  ∧ PrioritySignal.callbackId (PrioritySignal.remove id s)
    = PrioritySignal.callbackId s.
Proof.
  cbn zeta. rewrite PrioritySignal_remove_list. split_and!.
  - done.
  - apply sublist_filter.
  - intros i. rewrite list_elem_of_filter. tauto.
  - done.
Qed.

(** C10.  [dispatch] leaves the registry as it found it: the same
    entries under the same identifiers, with the same priorities and in
    the same order, and the same counter; whether the dispatch returns
    or throws.  (Listeners act on [World], which does not contain the
    registry.)  Both for [Signal] and for [PrioritySignal]. *)
Theorem dispatch_preserves_registry :
  (∀ (s : Signal) args w, final (Signal.dispatch args s w) = s)
  ∧ (∀ (s : PrioritySignal) args w,
       final (PrioritySignal.dispatch args s w) = s).
Proof.
  split; intros s args w.
  - rewrite Signal_dispatch_call_each. apply call_each_final.
  - rewrite PrioritySignal_dispatch_call_each. apply call_each_final.
Qed.
End Claims.

(** * The properties at work on the usage example *)

Local Open Scope Z_scope.

(** [add_identifiers_count_from_one] on two short runs. *)
Lemma add_identifiers_count_from_one_witness :
  issued_from_one
    (Signal.exec
       [Signal.Add print_sum; Signal.Remove 1; Signal.Add print_product;
        Signal.RemoveAll; Signal.Add throwing]
       Signal.new).1
  ∧ issued_from_one
      (PrioritySignal.exec
         [PrioritySignal.Add print_sum 5; PrioritySignal.Remove 1;
          PrioritySignal.Add throwing 0]
         (PrioritySignal.default_init 0)).1.
Proof.
  split.
  - refine (proj2 (proj1 add_identifiers_count_from_one _ _)).
    vm_compute. discriminate.
  - refine (proj2 (proj2 add_identifiers_count_from_one _ _)).
    vm_compute. discriminate.
Defined.

(** C1 as stated fails on a [Signal]: after 2^31 - 2 rounds of [add] and
    [removeAll], the next two [add] calls return [INT_MAX] and then
    [INT_MIN]; the identifiers are not strictly increasing. *)
Lemma add_identifiers_wrap_around :
  let ops :=
    Signal.churn print_sum (Z.to_nat (2 ^ 31 - 2))
    ++ [Signal.Add print_sum; Signal.Add print_sum] in
  (∃ ids, (Signal.exec ops Signal.new).1 = ids ++ [INT_MAX; INT_MIN])
  ∧ ¬ issued_from_one (Signal.exec ops Signal.new).1.
Proof.
  intros ops.
  assert (∃ ids, (Signal.exec ops Signal.new).1 = ids ++ [INT_MAX; INT_MIN])
    as [ids Hids].
  { subst ops. rewrite Signal_exec_app_ids, Signal_exec_churn.
    rewrite Z2Nat.id by (by vm_compute).
    eexists. apply (f_equal2 app); [reflexivity|]. by vm_compute. }
  clearbody ops. split; [by exists ids|].
  intros [Hsorted _]. rewrite Hids in Hsorted.
  apply StronglySorted_app_1_r, StronglySorted_cons in Hsorted as [Hlt _].
  apply Forall_cons in Hlt as [Hlt _]. by vm_compute in Hlt.
Qed.

(** A default-initialized [PrioritySignal] hands out, first, the successor
    of whatever its counter held. *)
Lemma PrioritySignal_first_identifier {Args World Exn}
    (indeterminate : Z) (cb : callback Args World Exn) (priority : Z) :
  (PrioritySignal.add cb priority
     (PrioritySignal.default_init indeterminate)).1
  = pre_increment indeterminate.
Proof. reflexivity. Qed.

Example PrioritySignal_first_identifier_zero :
  (PrioritySignal.add print_sum 0 (PrioritySignal.default_init (-1))).1 = 0.
Proof. reflexivity. Qed.

(** [dispatch_calls_each_listener_once] on a [Signal] with two
    listeners. *)
Lemma dispatch_calls_each_listener_once_witness :
  let s :=
    (Signal.exec [Signal.Add print_sum; Signal.Add print_product]
       Signal.new).2 in
  ending (Signal.dispatch (2, 3) s []) = Returns tt [5; 6]
  ∧ (∃ out, ending (Signal.dispatch (2, 3) s []) = Returns tt out)
  ∧ length (calls (Signal.dispatch (2, 3) s [])) = size (Signal.callbackMap s)
  ∧ NoDup (inv_id <$> calls (Signal.dispatch (2, 3) s [])).
Proof.
  intros s.
  assert (ending (Signal.dispatch (2, 3) s []) = Returns tt [5; 6]) as Hend
    by (by vm_compute).
  destruct (dispatch_calls_each_listener_once s (2, 3) [])
    as [Hreturns Honce].
  split_and!.
  - done.
  - apply Hreturns. intros id cb Hcb%elem_of_map_iteration out.
    assert (map_iteration (Signal.callbackMap s)
            = [(1, print_sum); (2, print_product)]) as Hl by (by vm_compute).
    rewrite Hl in Hcb.
    apply elem_of_cons in Hcb as [[= -> ->]|Hcb]; [by eexists|].
    apply elem_of_cons in Hcb as [[= -> ->]|Hcb]; [by eexists|].
    by apply elem_of_nil in Hcb.
  - by destruct (Honce _ Hend) as (_ & _ & Hlen & _).
  - by destruct (Honce _ Hend) as (_ & Hnodup & _).
Defined.

(** [priority_dispatch_order] with listeners that return. *)
Lemma priority_dispatch_order_witness :
  let s0 := PrioritySignal.default_init 7 in
  let r1 := PrioritySignal.add print_sum 5 s0 in
  let r2 := PrioritySignal.add print_product 1 r1.2 in
  let r3 := PrioritySignal.add print_product 10 r2.2 in
  let r4 := PrioritySignal.add print_sum 1 r3.2 in
  ending (PrioritySignal.dispatch (2, 3) r4.2 []) = Returns tt [6; 5; 6; 5]
  ∧ calls (PrioritySignal.dispatch (2, 3) r4.2 [])
    = [Invoke 10 print_product (2, 3); Invoke 8 print_sum (2, 3);
       Invoke 9 print_product (2, 3); Invoke 11 print_sum (2, 3)].
Proof.
  intros s0 r1 r2 r3 r4.
  assert (ending (PrioritySignal.dispatch (2, 3) r4.2 [])
          = Returns tt [6; 5; 6; 5]) as Hend by (by vm_compute).
  split; [done|].
  exact (proj2 (priority_dispatch_order 7 print_sum print_product
                  print_product print_sum (2, 3) []) _ Hend).
Defined.

(** [removed_listener_is_not_called]: a removed listener stays out of the
    dispatch while other listeners come and go, and removing an
    identifier that is not there changes nothing. *)
Lemma removed_listener_is_not_called_witness :
  let s :=
    (Signal.exec [Signal.Add print_sum; Signal.Add print_product]
       Signal.new).2 in
  let p :=
    (PrioritySignal.exec
       [PrioritySignal.Add print_sum 0; PrioritySignal.Add print_product 100]
       (PrioritySignal.default_init 0)).2 in
  (1 ∉ inv_id <$> calls (Signal.dispatch (2, 3)
                           (Signal.exec [Signal.Add throwing]
                              (Signal.remove 1 s)).2 []))
  ∧ Signal.remove 7 s = s
  ∧ (1 ∉ inv_id <$> calls (PrioritySignal.dispatch (2, 3)
                             (PrioritySignal.exec
                                [PrioritySignal.Add throwing 50]
                                (PrioritySignal.remove 1 p)).2 []))
  ∧ PrioritySignal.remove 7 p = p.
Proof.
  intros s p.
  pose proof (@removed_listener_is_not_called (Z * Z) (list Z) unit)
    as (Hs1 & Hs2 & Hp1 & Hp2).
  split_and!.
  - apply (Hs1 s 1 [Signal.Add throwing] (2, 3) []). compute_done.
  - apply (Hs2 s 7). by vm_compute.
  - apply (Hp1 p 1 [PrioritySignal.Add throwing 50] (2, 3) []). compute_done.
  - apply (Hp2 p 7). compute_done.
Defined.

(** [dispatch_stops_at_first_throw]: of three listeners the second
    throws; the third is not called. *)
Lemma dispatch_stops_at_first_throw_witness :
  let s :=
    (Signal.exec
       [Signal.Add print_sum; Signal.Add throwing; Signal.Add print_product]
       Signal.new).2 in
  let p :=
    (PrioritySignal.exec
       [PrioritySignal.Add print_product 1; PrioritySignal.Add throwing 5;
        PrioritySignal.Add print_sum 10]
       (PrioritySignal.default_init 0)).2 in
  Signal.dispatch (2, 3) s []
  = Run [Invoke 1 print_sum (2, 3); Invoke 2 throwing (2, 3)] s (Throws tt [5])
  ∧ PrioritySignal.dispatch (2, 3) p []
    = Run [Invoke 3 print_sum (2, 3); Invoke 2 throwing (2, 3)] p
        (Throws tt [5]).
Proof.
  intros s p.
  pose proof (@dispatch_stops_at_first_throw (Z * Z) (list Z) unit)
    as [Hs Hp].
  split.
  - apply (Hs s (2, 3) [] [(1, print_sum)] (2, throwing)
             [(3, print_product)] [5] tt [5]).
    + by vm_compute.
    + econstructor; [reflexivity|constructor].
    + reflexivity.
  - apply (Hp p (2, 3) [] [(3, print_sum)] (2, throwing)
             [(1, print_product)] [5] tt [5]).
    + by vm_compute.
    + econstructor; [reflexivity|constructor].
    + reflexivity.
Defined.

(** [dispatch_in_ascending_identifier_order] on a [Signal] with three
    listeners of which one has been removed. *)
Lemma dispatch_in_ascending_identifier_order_witness :
  let ops :=
    [Signal.Add print_sum; Signal.Add print_product; Signal.Add print_sum;
     Signal.Remove 2] in
  let s := (Signal.exec ops Signal.new).2 in
  inv_id <$> calls (Signal.dispatch (2, 3) s []) = [1; 3]
  ∧ inv_id <$> calls (Signal.dispatch (4, 5) s [5; 5])
    = inv_id <$> calls (Signal.dispatch (2, 3) s []).
Proof.
  intros ops s.
  pose proof (@dispatch_in_ascending_identifier_order (Z * Z) (list Z) unit)
    as (_ & Hreg & Hagain).
  assert (Z.of_nat (Signal.count_adds ops) ≤ INT_MAX) as Hn
    by (vm_compute; discriminate).
  assert (ending (Signal.dispatch (2, 3) s []) = Returns tt [5; 5]) as Hend
    by (by vm_compute).
  split.
  - exact (proj2 (Hreg ops Hn) (2, 3) [] [5; 5] Hend).
  - refine (proj1 (Hagain s (2, 3) [] [5; 5] (4, 5) [5; 5] [5; 5; 9; 9]
                     Hend _)).
    by vm_compute.
Defined.

(** C8 as stated fails: after 2^31 - 2 rounds of [add] and [removeAll],
    [print_sum] is registered, under [INT_MAX], and then [print_product],
    under [INT_MIN]; [dispatch] calls [print_product] first. *)
Lemma dispatch_order_after_wrap_around :
  let ops :=
    Signal.churn print_sum (Z.to_nat (2 ^ 31 - 2))
    ++ [Signal.Add print_sum; Signal.Add print_product] in
  let s := (Signal.exec ops Signal.new).2 in
  Signal.registration_order ops Signal.new [] = [INT_MAX; INT_MIN]
  ∧ calls (Signal.dispatch (2, 3) s [])
    = [Invoke INT_MIN print_product (2, 3); Invoke INT_MAX print_sum (2, 3)]
  ∧ inv_id <$> calls (Signal.dispatch (2, 3) s [])
    ≠ Signal.registration_order ops Signal.new [].
Proof.
  intros ops s.
  assert (s = (Signal.exec [Signal.Add print_sum; Signal.Add print_product]
                 {| Signal.callbackId := 2 ^ 31 - 2;
                    Signal.callbackMap := ∅ |}).2) as Hs.
  { subst s ops. rewrite Signal_exec_app_state, Signal_exec_churn.
    rewrite Z2Nat.id by (by vm_compute).
    by rewrite int_wrap_id by (by vm_compute). }
  assert (Signal.registration_order ops Signal.new [] = [INT_MAX; INT_MIN])
    as Hreg.
  { subst ops. rewrite Signal_registration_order_app.
    rewrite Signal_registration_churn, Signal_exec_churn.
    rewrite Z2Nat.id by (by vm_compute). by vm_compute. }
  clearbody s ops. rewrite Hreg, Hs. split_and!.
  - done.
  - by vm_compute.
  - by vm_compute.
Qed.


(** * Further properties of the header *)

(** ** Helpers *)

Lemma int_wrap_inj a b :
  - 2 ^ 32 < a - b < 2 ^ 32 → int_wrap a = int_wrap b → a = b.
Proof.
  unfold int_wrap. intros Hab Heq.
  pose proof (Z.div_mod (a + 2 ^ 31) (2 ^ 32)) as Ha.
  pose proof (Z.div_mod (b + 2 ^ 31) (2 ^ 32)) as Hb.
  change (2 ^ 32) with 4294967296 in *. change (2 ^ 31) with 2147483648 in *.
  lia.
Qed.

(** Up to 2^32 successive increments give pairwise different values,
    wherever the counter starts. *)
Lemma increments_NoDup c n : Z.of_nat n ≤ 2 ^ 32 → NoDup (increments c n).
Proof.
  intros Hn. unfold increments.
  apply NoDup_fmap_2_strong; [|apply NoDup_seq].
  intros j k [??]%elem_of_seq [??]%elem_of_seq Heq.
  apply int_wrap_inj in Heq; [lia|].
  change (2 ^ 32) with 4294967296 in *. lia.
Qed.

Lemma filter_none {A} (P : A → Prop) `{!∀ a, Decision (P a)} (xs : list A) :
  (∀ a, a ∈ xs → ¬ P a) → filter P xs = [].
Proof.
  induction xs as [|a xs IH]; intros Hxs; [done|].
  rewrite filter_cons_False by (apply Hxs; left).
  apply IH. intros b Hb. apply Hxs. by right.
Qed.

Lemma filter_erases_at_most_one {A} (f : A → Z) (k : Z) (xs : list A) :
  NoDup (f <$> xs) →
  (length xs ≤ S (length (filter (λ a, f a ≠ k) xs)))%nat.
Proof.
  induction xs as [|a xs IH]; intros Hnd; [cbn; lia|].
  rewrite fmap_cons in Hnd. apply NoDup_cons in Hnd as [Ha Hnd].
  rewrite filter_cons. case_decide as Hk.
  - cbn. specialize (IH Hnd). lia.
  - rewrite filter_all; [done|]. apply Forall_forall. intros b Hb Hfb.
    apply Ha. rewrite Hk, <-Hfb.
    by apply list_elem_of_fmap_2.
Qed.

Section SignalMore.
Context {Args World Exn : Type}.
Local Abbreviation callback := (callback Args World Exn).
Local Abbreviation Signal := (Signal.Signal Args World Exn).
Local Abbreviation op := (Signal.op Args World Exn).
Implicit Types (s : Signal) (ops : list op) (o : op) (cb old : callback).
Implicit Types (args : Args) (w : World) (id : callback_id).

Import Signal.

(** What [call_each] does to the listeners and to the world does not
    depend on the object it runs on. *)
Lemma call_each_any_object {S1 S2 : Type}
    (l : list (callback_id * callback)) args (s1 : S1) (s2 : S2) w :
  calls (call_each l args s1 w) = calls (call_each l args s2 w)
  ∧ ending (call_each l args s1 w) = ending (call_each l args s2 w).
Proof.
  revert w. induction l as [|[id cb] l IH]; intros w; [done|].
  rewrite !call_each_cons. destruct (cb args w) as [w1|e w1]; [|done].
  cbn. destruct (IH w1) as [-> ->]. done.
Qed.

(** While the counter has not reached [INT_MAX], it bounds the keys of
    the map, and it counts the [add] calls. *)
Lemma Signal_keys_below_counter ops s :
  INT_MIN ≤ callbackId s →
  callbackId s + Z.of_nat (count_adds ops) ≤ INT_MAX →
  (∀ k, is_Some (callbackMap s !! k) → k ≤ callbackId s) →
  callbackId (exec ops s).2 = callbackId s + Z.of_nat (count_adds ops)
  ∧ (∀ k, is_Some (callbackMap (exec ops s).2 !! k) →
          k ≤ callbackId (exec ops s).2).
Proof.
  revert s. induction ops as [|o ops IH]; intros s Hlo Hhi Hkeys.
  { cbn. split; [lia|done]. }
  rewrite Signal_exec_cons. cbn [snd]. cbn [count_adds] in Hhi |- *.
  destruct o as [cb|k|]; cbn [is_add Nat.add] in Hhi |- *.
  - assert (pre_increment (callbackId s) = callbackId s + 1) as Hnew
      by (apply pre_increment_id; lia).
    destruct (IH (step (Add cb) s).2) as [Hid Hbound];
      cbn [step add snd fst callbackId callbackMap]; rewrite ?Hnew.
    + lia.
    + lia.
    + intros k. unfold map_insert.
      destruct (callbackMap s !! (callbackId s + 1)) eqn:Hk.
      * intros Hin%Hkeys. lia.
      * rewrite lookup_insert. case_decide; [lia|]. intros Hin%Hkeys. lia.
    + cbn [step add snd fst callbackId callbackMap] in Hid, Hbound.
      rewrite Hnew in Hid, Hbound. split; [lia|done].
  - destruct (IH (step (Remove k) s).2) as [Hid Hbound];
      cbn [step remove snd callbackId callbackMap]; [done|lia| |].
    + intros k'. unfold map_erase. rewrite lookup_delete.
      case_decide; [by intros []|]. apply Hkeys.
    + cbn [step remove snd callbackId callbackMap] in Hid, Hbound.
      split; [lia|done].
  - destruct (IH (step RemoveAll s).2) as [Hid Hbound];
      cbn [step removeAll snd callbackId callbackMap]; [done|lia| |].
    + intros k'. unfold map_clear. rewrite lookup_empty. by intros [].
    + cbn [step removeAll snd callbackId callbackMap] in Hid, Hbound.
      split; [lia|done].
Qed.

Lemma Signal_next_identifier_free ops :
  Z.of_nat (count_adds ops) < INT_MAX →
  let s := (exec ops new).2 in
  pre_increment (callbackId s) = Z.of_nat (count_adds ops) + 1
  ∧ callbackMap s !! pre_increment (callbackId s) = None.
Proof.
  intros Hn s.
  destruct (Signal_keys_below_counter ops new) as [Hid Hbound]; cbn.
  - unfold INT_MIN. lia.
  - lia.
  - intros k. rewrite lookup_empty. by intros [].
  - cbn in Hid. fold s in Hid, Hbound.
    rewrite pre_increment_id by (unfold INT_MIN in *; lia).
    split; [lia|]. apply eq_None_not_Some. intros Hk%Hbound. lia.
Qed.

Lemma Signal_exec_add_remove_rounds cb n c (m : gmap Z callback) :
  INT_MIN ≤ c ≤ INT_MAX →
  (∀ j : nat, (1 ≤ j ≤ n)%nat → m !! int_wrap (c + Z.of_nat j) = None) →
  (exec (add_remove_rounds cb c n) {| callbackId := c; callbackMap := m |}).2
  = {| callbackId := int_wrap (c + Z.of_nat n); callbackMap := m |}.
Proof.
  revert c. induction n as [|n IH]; intros c Hc Hfree.
  { cbn. by rewrite Z.add_0_r, int_wrap_id. }
  cbn [add_remove_rounds]. rewrite !Signal_exec_cons. cbn [snd].
  assert (m !! pre_increment c = None) as Hnew.
  { unfold pre_increment. apply (Hfree 1%nat). lia. }
  cbn [step add snd fst]. unfold remove, map_insert, map_erase.
  cbn [callbackId callbackMap]. rewrite Hnew, delete_insert_id by done.
  rewrite IH.
  - unfold pre_increment. rewrite int_wrap_add_l. do 2 f_equal. lia.
  - apply int_wrap_range.
  - intros j Hj. unfold pre_increment. rewrite int_wrap_add_l.
    replace (c + 1 + Z.of_nat j) with (c + Z.of_nat (S j)) by lia.
    apply Hfree. lia.
Qed.

(** X1.  On a [Signal] that has seen fewer than [INT_MAX] [add] calls,
    [add(cb)] returns the number of [add] calls so far plus one; that
    identifier was not in use; afterwards the map holds [cb] under it,
    holds under every other key what it held before, and has one entry
    more. *)
Theorem Signal_add_registers_under_fresh_identifier ops cb :
  Z.of_nat (count_adds ops) < INT_MAX →
  let s := (exec ops new).2 in
  let r := add cb s in
  r.1 = Z.of_nat (count_adds ops) + 1
  ∧ callbackMap s !! r.1 = None
  ∧ callbackMap r.2 !! r.1 = Some cb
  ∧ (∀ k, k ≠ r.1 → callbackMap r.2 !! k = callbackMap s !! k)
  ∧ size (callbackMap r.2) = S (size (callbackMap s)).
Proof.
  intros Hn s r.
  destruct (Signal_next_identifier_free ops Hn) as [Hid Hfree].
  fold s in Hid, Hfree. subst r. unfold add. cbn [fst snd callbackMap].
  unfold map_insert. rewrite Hfree. split_and!.
  - done.
  - done.
  - apply lookup_insert_eq.
  - intros k Hk. by rewrite lookup_insert_ne.
  - by apply map_size_insert_None.
Qed.

(** X2.  [remove] with the identifier that [add] has just returned takes
    that key out of the map.  On a [Signal] that has seen fewer than
    [INT_MAX] [add] calls this undoes the [add] but for the counter: the
    entries are those from before the [add]. *)
Theorem Signal_remove_undoes_add :
  (∀ s cb,
     let r := add cb s in
     callbackMap (remove r.1 r.2) = delete r.1 (callbackMap s))
  ∧ (∀ ops cb,
       Z.of_nat (count_adds ops) < INT_MAX →
       let s := (exec ops new).2 in
       let r := add cb s in
       remove r.1 r.2 = {| callbackId := r.1; callbackMap := callbackMap s |}).
Proof.
  assert (∀ s cb, callbackMap (remove (add cb s).1 (add cb s).2)
                  = delete (add cb s).1 (callbackMap s)) as Hdel.
  { intros s cb. unfold remove, add, map_erase, map_insert.
    cbn [fst snd callbackMap].
    destruct (callbackMap s !! pre_increment (callbackId s)); [done|].
    apply delete_insert_eq. }
  split; [done|]. intros ops cb Hn s r.
  destruct (Signal_next_identifier_free ops Hn) as [_ Hfree]. fold s in Hfree.
  specialize (Hdel s cb). fold r in Hdel.
  rewrite delete_id in Hdel by done.
  unfold remove in *. cbn [callbackMap] in Hdel. by rewrite Hdel.
Qed.

(** X3.  When the identifier that [add] is about to hand out is still a
    key of the map, [add(cb)] returns it and stores nothing: the map is
    as before, the key still leads to the old listener, [dispatch] calls
    what it called before, and [remove] with the returned identifier
    unregisters the old listener. *)
Theorem Signal_add_on_taken_identifier s cb old :
  callbackMap s !! pre_increment (callbackId s) = Some old →
  let r := add cb s in
  r.1 = pre_increment (callbackId s)
  ∧ callbackMap r.2 = callbackMap s
  ∧ callbackMap r.2 !! r.1 = Some old
  ∧ (∀ args w,
       calls (dispatch args r.2 w) = calls (dispatch args s w)
       ∧ ending (dispatch args r.2 w) = ending (dispatch args s w))
  ∧ callbackMap (remove r.1 r.2) !! r.1 = None.
Proof.
  intros Htaken r. subst r. unfold add. cbn [fst snd callbackMap].
  unfold map_insert. rewrite Htaken. split_and!.
  - done.
  - done.
  - done.
  - intros args w. rewrite !Signal_dispatch_call_each.
    unfold listeners. cbn [callbackMap]. apply call_each_any_object.
  - unfold remove, map_erase. cbn [callbackMap]. apply lookup_delete_eq.
Qed.
End SignalMore.

Section PrioritySignalMore.
Context {Args World Exn : Type}.
Local Abbreviation callback := (callback Args World Exn).
Local Abbreviation entry := (PrioritizedCallback Args World Exn).
Local Abbreviation PrioritySignal :=
  (PrioritySignal.PrioritySignal Args World Exn).
Local Abbreviation op := (PrioritySignal.op Args World Exn).
Implicit Types (s : PrioritySignal) (ops : list op) (o : op) (cb : callback).
Implicit Types (a b c : entry) (l : list entry).
Implicit Types (args : Args) (w : World) (id : callback_id) (p q : Z).

Import PrioritySignal.

(** The identifiers in the list are among those the list held at the
    start and those handed out since, each taken at most as often. *)
Lemma PrioritySignal_ids_issued ops s :
  getCallbackId <$> callbackList (exec ops s).2
  ⊆+ (getCallbackId <$> callbackList s) ++ (exec ops s).1.
Proof.
  revert s. induction ops as [|o ops IH]; intros s.
  { cbn. by rewrite app_nil_r. }
  rewrite PrioritySignal_exec_cons. cbn [fst snd].
  etrans; [apply IH|]. rewrite app_assoc. apply submseteq_skips_r.
  destruct o as [cb p|k|]; cbn [step fst snd].
  - unfold add. cbn [fst snd callbackList]. apply Permutation_submseteq.
    by rewrite list_sort_perm, fmap_app.
  - rewrite PrioritySignal_remove_list, app_nil_r.
    apply fmap_submseteq, sublist_submseteq, sublist_filter.
  - apply submseteq_nil_l.
Qed.

Lemma submseteq_NoDup_l {A} (xs ys : list A) : xs ⊆+ ys → NoDup ys → NoDup xs.
Proof.
  intros [k Hk]%submseteq_Permutation. rewrite Hk.
  by intros [? _]%NoDup_app.
Qed.

(** X6.  [PriorityCompare] is a strict weak ordering, which is what
    [std::list::sort] asks of its comparison: no entry comes before
    itself, the comparison is transitive, and so is "neither comes before
    the other", which holds exactly of entries of equal priority. *)
Theorem PriorityCompare_strict_weak_ordering :
  (∀ a, PriorityCompare a a = false)
  ∧ (∀ a b c, PriorityCompare a b = true → PriorityCompare b c = true →
              PriorityCompare a c = true)
  ∧ (∀ a b, PriorityCompare a b = false ∧ PriorityCompare b a = false
            ↔ getPriority a = getPriority b)
  ∧ (∀ a b c,
       PriorityCompare a b = false → PriorityCompare b a = false →
       PriorityCompare b c = false → PriorityCompare c b = false →
       PriorityCompare a c = false ∧ PriorityCompare c a = false).
Proof.
  assert (∀ a b, PriorityCompare a b = false
                 ↔ getPriority a ≤ getPriority b) as Hfalse.
  { intros a b. rewrite <-not_true_iff_false, PriorityCompare_spec. lia. }
  split_and!.
  - intros a. apply Hfalse. lia.
  - intros a b c. rewrite !PriorityCompare_spec. lia.
  - intros a b. rewrite !Hfalse. lia.
  - intros a b c. rewrite !Hfalse. lia.
Qed.

(** X7.  On a list in descending priority, [add(cb, p)] puts the new
    entry behind the entries of priority [p] or more and in front of the
    entries of priority less than [p], and moves no other entry. *)
Theorem PrioritySignal_add_position s cb p :
  StronglySorted priority_ge (callbackList s) →
  let r := add cb p s in
  callbackList r.2
  = filter (λ a, p ≤ getPriority a) (callbackList s)
    ++ [PrioritizedCallback.mk cb p r.1]
    ++ filter (λ a, getPriority a < p) (callbackList s).
Proof.
  intros Hs r. subst r. cbn [add snd fst callbackList].
  set (e := PrioritizedCallback.mk cb p (pre_increment (callbackId s))).
  symmetry. apply list_sort_unique.
  - apply StronglySorted_app_2.
    + intros a b [Ha _]%list_elem_of_filter Hb. unfold priority_ge.
      apply elem_of_cons in Hb as [->|[Hb _]%list_elem_of_filter];
        cbn in *; lia.
    + by apply StronglySorted_filter.
    + constructor; [by apply StronglySorted_filter|].
      apply Forall_forall. intros b [Hb _]%list_elem_of_filter.
      unfold priority_ge. cbn. lia.
  - intros q. rewrite !filter_app. destruct (decide (q < p)) as [Hq|Hq].
    + rewrite (filter_none _ (filter _ _)), (filter_none _ [e]).
      * rewrite list_filter_filter_l, app_nil_r; [done|].
        unfold has_priority. intros a. lia.
      * intros a ->%list_elem_of_singleton. unfold has_priority. cbn. lia.
      * intros a [Ha _]%list_elem_of_filter. unfold has_priority. lia.
    + rewrite (filter_none _ (filter (λ a, getPriority a < p) _)).
      * rewrite list_filter_filter_l, app_nil_r; [done|].
        unfold has_priority. intros a. lia.
      * intros a [Ha _]%list_elem_of_filter. unfold has_priority. lia.
Qed.

(** X8.  In every state, [add] keeps every entry of the list, puts in
    exactly one, the new one, under the identifier it returns, and leaves
    the list in descending priority, whatever order it was in; the
    counter then holds the returned identifier. *)
Theorem PrioritySignal_add_entries s cb p :
  let r := add cb p s in
  callbackList r.2 ≡ₚ callbackList s ++ [PrioritizedCallback.mk cb p r.1]
  ∧ length (callbackList r.2) = S (length (callbackList s))
  ∧ StronglySorted priority_ge (callbackList r.2)
  ∧ callbackId r.2 = r.1.
Proof.
  cbn zeta. cbn [add snd fst callbackList callbackId]. split_and!.
  - apply list_sort_perm.
  - rewrite list_sort_perm, length_app. cbn. lia.
  - apply list_sort_sorted.
  - done.
Qed.

(** X13.  On a list in descending priority, [remove] with the identifier
    that [add] has just returned leaves the list as it was before the
    [add], without the entries that already had that identifier: when no
    entry had it, the list is the one from before. *)
Theorem PrioritySignal_remove_undoes_add s cb p :
  StronglySorted priority_ge (callbackList s) →
  let r := add cb p s in
  callbackList (remove r.1 r.2)
  = filter (λ a, getCallbackId a ≠ r.1) (callbackList s)
  ∧ (r.1 ∉ getCallbackId <$> callbackList s →
     callbackList (remove r.1 r.2) = callbackList s).
Proof.
  intros Hs r.
  assert (callbackList (remove r.1 r.2)
          = filter (λ a, getCallbackId a ≠ r.1) (callbackList s)) as Heq.
  { rewrite PrioritySignal_remove_list. subst r.
    cbn [add snd fst callbackList].
    apply sorted_stable_unique.
    - apply StronglySorted_filter, list_sort_sorted.
    - by apply StronglySorted_filter.
    - intros q. rewrite !(filter_comm (has_priority q)), list_sort_filter.
      rewrite (filter_comm _ (has_priority q)), filter_app.
      rewrite (filter_none _ [_]), app_nil_r.
      + apply filter_comm.
      + intros a ->%list_elem_of_singleton. cbn. tauto. }
  split; [done|]. intros Hfresh. rewrite Heq. apply filter_all.
  apply Forall_forall. intros a Ha Hid. apply Hfresh. rewrite <-Hid.
  by apply list_elem_of_fmap_2.
Qed.
End PrioritySignalMore.

Section RegistriesMore.
Context {Args World Exn : Type}.
Local Abbreviation callback := (callback Args World Exn).
Local Abbreviation Signal := (Signal.Signal Args World Exn).
Local Abbreviation PrioritySignal :=
  (PrioritySignal.PrioritySignal Args World Exn).
Implicit Types (args : Args) (w : World) (id : callback_id) (e : Exn).
Implicit Types (cb : callback) (x : callback_id * callback).

(** X4.  [dispatch] on a registry without listeners, be it new or just
    cleared by [removeAll], calls nothing and returns, and the world is
    as before.  Both for [Signal] and for [PrioritySignal]. *)
Theorem dispatch_without_listeners :
  (∀ args w,
     Signal.dispatch args (Signal.new : Signal) w
     = Run [] Signal.new (Returns tt w))
  ∧ (∀ (s : Signal) args w,
       Signal.dispatch args (Signal.removeAll s) w
       = Run [] (Signal.removeAll s) (Returns tt w))
  ∧ (∀ indeterminate args w,
       PrioritySignal.dispatch args
         (PrioritySignal.default_init indeterminate : PrioritySignal) w
       = Run [] (PrioritySignal.default_init indeterminate) (Returns tt w))
  ∧ (∀ (s : PrioritySignal) args w,
       PrioritySignal.dispatch args (PrioritySignal.removeAll s) w
       = Run [] (PrioritySignal.removeAll s) (Returns tt w)).
Proof.
  split_and!; intros; rewrite ?Signal_dispatch_call_each,
    ?PrioritySignal_dispatch_call_each.
  - unfold Signal.listeners. cbn. by rewrite map_iteration_empty.
  - unfold Signal.listeners. cbn. unfold map_clear.
    by rewrite map_iteration_empty.
  - done.
  - done.
Qed.

(** X5.  [remove] twice with one identifier is [remove] once; two
    [remove] calls can be swapped; and [remove] before or after
    [removeAll] adds nothing to [removeAll].  Both for [Signal] and for
    [PrioritySignal]. *)
Theorem remove_idempotent_and_commutes :
  (∀ (s : Signal) id,
     Signal.remove id (Signal.remove id s) = Signal.remove id s)
  ∧ (∀ (s : Signal) id1 id2,
       Signal.remove id1 (Signal.remove id2 s)
       = Signal.remove id2 (Signal.remove id1 s))
  ∧ (∀ (s : Signal) id,
       Signal.remove id (Signal.removeAll s) = Signal.removeAll s
       ∧ Signal.removeAll (Signal.remove id s) = Signal.removeAll s)
  ∧ (∀ (s : PrioritySignal) id,
       PrioritySignal.remove id (PrioritySignal.remove id s)
       = PrioritySignal.remove id s)
  ∧ (∀ (s : PrioritySignal) id1 id2,
       PrioritySignal.remove id1 (PrioritySignal.remove id2 s)
       = PrioritySignal.remove id2 (PrioritySignal.remove id1 s))
  ∧ (∀ (s : PrioritySignal) id,
       PrioritySignal.remove id (PrioritySignal.removeAll s)
       = PrioritySignal.removeAll s
       ∧ PrioritySignal.removeAll (PrioritySignal.remove id s)
         = PrioritySignal.removeAll s).
Proof.
  split_and!.
  - intros s id. unfold Signal.remove, map_erase. cbn.
    by rewrite delete_delete_eq.
  - intros s id1 id2. unfold Signal.remove, map_erase. cbn.
    by rewrite delete_delete.
  - intros s id. unfold Signal.remove, Signal.removeAll, map_erase, map_clear.
    cbn. by rewrite delete_empty.
  - intros s id. unfold PrioritySignal.remove. cbn. f_equal.
    rewrite !erase_if_filter. by apply list_filter_filter_l.
  - intros s id1 id2. unfold PrioritySignal.remove. cbn. f_equal.
    rewrite !erase_if_filter. apply filter_comm.
  - done.
Qed.

(** X9.  [PrioritySignal::dispatch] on a list whose listeners do not
    throw returns; and a [PrioritySignal::dispatch] that returns has
    called the listener of every entry of the list exactly once, with the
    arguments of the dispatch, in the order of the list, and has made no
    other call. *)
Theorem priority_dispatch_calls_each_entry_once
    (s : PrioritySignal) args w :
  let made := calls (PrioritySignal.dispatch args s w) in
  (Forall (λ a, ∀ w0, ∃ w1, getCallback a args w0 = Normal w1)
     (PrioritySignal.callbackList s) →
   ∃ w', ending (PrioritySignal.dispatch args s w) = Returns tt w')
  ∧ (∀ w', ending (PrioritySignal.dispatch args s w) = Returns tt w' →
       made = (λ a, Invoke (getCallbackId a) (getCallback a) args)
              <$> PrioritySignal.callbackList s
       ∧ length made = length (PrioritySignal.callbackList s)
       ∧ returns_all args w
           (getCallback <$> PrioritySignal.callbackList s) w').
Proof.
  cbn zeta. rewrite PrioritySignal_dispatch_call_each. split.
  - intros Hreturn.
    destruct (returns_all_total (PrioritySignal.listeners s) args w)
      as [w' Hall].
    { unfold PrioritySignal.listeners. by apply Forall_fmap. }
    exists w'. by rewrite (call_each_returns _ _ s _ _ Hall).
  - intros w' [Hall Hcalls]%call_each_returns_inv. rewrite Hcalls.
    unfold PrioritySignal.listeners in *.
    rewrite <-!list_fmap_compose in *. split_and!; [done| |done].
    by rewrite length_fmap.
Qed.

(** X10.  Whether it returns or throws, [dispatch] calls only listeners
    of the registry, in their order, with the arguments of the dispatch.
    [Signal::dispatch] calls each only with its own callback and never
    one identifier twice, so it makes no more calls than the map has
    entries; the calls of [PrioritySignal::dispatch] are those of a front
    part of the list. *)
Theorem dispatch_calls_only_registered_listeners :
  (∀ (s : Signal) args w,
     let made := calls (Signal.dispatch args s w) in
     NoDup (inv_id <$> made)
     ∧ (∀ c, c ∈ made →
             Signal.callbackMap s !! inv_id c = Some (inv_cb c)
             ∧ inv_args c = args)
     ∧ (length made ≤ size (Signal.callbackMap s))%nat)
  ∧ (∀ (s : PrioritySignal) args w,
       let made := calls (PrioritySignal.dispatch args s w) in
       made `prefix_of`
         (λ a, Invoke (getCallbackId a) (getCallback a) args)
         <$> PrioritySignal.callbackList s
       ∧ (length made ≤ length (PrioritySignal.callbackList s))%nat).
Proof.
  split.
  - intros s args w. cbn zeta. rewrite Signal_dispatch_call_each.
    pose proof (call_each_prefix (Signal.listeners s) args s w) as Hpre.
    split_and!.
    + destruct Hpre as [k Hk]. apply (f_equal (fmap inv_id)) in Hk.
      rewrite invocation_ids, fmap_app in Hk.
      pose proof (map_iteration_keys_NoDup (Signal.callbackMap s)) as Hnd.
      unfold Signal.listeners in Hk. rewrite Hk in Hnd.
      by apply NoDup_app in Hnd as [? _].
    + intros c Hc. destruct Hpre as [k Hk].
      assert (c ∈ invocation_of args <$> Signal.listeners s) as Hin.
      { rewrite Hk. apply elem_of_app. by left. }
      apply list_elem_of_fmap in Hin as ([id cb] & -> & Hin).
      by apply elem_of_map_iteration in Hin.
    + assert (length (Signal.listeners s) = size (Signal.callbackMap s))
        as Hlen.
      { unfold Signal.listeners.
        by rewrite map_iteration_perm, length_map_to_list. }
      apply prefix_length in Hpre. by rewrite length_fmap, Hlen in Hpre.
  - intros s args w. cbn zeta. rewrite PrioritySignal_dispatch_call_each.
    pose proof (call_each_prefix (PrioritySignal.listeners s) args s w)
      as Hpre.
    unfold PrioritySignal.listeners in Hpre.
    rewrite <-list_fmap_compose in Hpre. split; [done|].
    apply prefix_length in Hpre. by rewrite length_fmap in Hpre.
Qed.

(** X11.  When [dispatch] throws [e], it is the last listener called that
    threw [e], every listener called before it returned, no listener
    behind it in the dispatch order was called, and the world is the one
    that listener left.  Both for [Signal] and for [PrioritySignal]. *)
Theorem dispatch_throw_comes_from_last_call :
  (∀ (s : Signal) args w e w',
     ending (Signal.dispatch args s w) = Throws e w' →
     ∃ l1 x l2 w1,
       Signal.listeners s = l1 ++ x :: l2
       ∧ returns_all args w l1.*2 w1
       ∧ x.2 args w1 = Thrown e w'
       ∧ calls (Signal.dispatch args s w) = invocation_of args <$> l1 ++ [x])
  ∧ (∀ (s : PrioritySignal) args w e w',
       ending (PrioritySignal.dispatch args s w) = Throws e w' →
       ∃ l1 x l2 w1,
         PrioritySignal.listeners s = l1 ++ x :: l2
         ∧ returns_all args w l1.*2 w1
         ∧ x.2 args w1 = Thrown e w'
         ∧ calls (PrioritySignal.dispatch args s w)
           = invocation_of args <$> l1 ++ [x]).
Proof.
  split; intros s args w e w'.
  - rewrite Signal_dispatch_call_each. apply call_each_throws_inv.
  - rewrite PrioritySignal_dispatch_call_each. apply call_each_throws_inv.
Qed.

(** X12.  Wherever the counter starts, the identifiers returned by up to
    2^32 [add] calls on one registry are pairwise different, whatever
    [remove] and [removeAll] calls come in between.  So the entries of a
    [PrioritySignal] that has seen at most 2^32 [add] calls have pairwise
    different identifiers, and [remove] erases at most one entry. *)
Theorem add_identifiers_pairwise_different :
  (∀ (s : Signal) (ops : list (Signal.op Args World Exn)),
     Z.of_nat (Signal.count_adds ops) ≤ 2 ^ 32 →
     NoDup (Signal.exec ops s).1)
  ∧ (∀ (s : PrioritySignal) (ops : list (PrioritySignal.op Args World Exn)),
       Z.of_nat (PrioritySignal.count_adds ops) ≤ 2 ^ 32 →
       NoDup (PrioritySignal.exec ops s).1)
  ∧ (∀ indeterminate (ops : list (PrioritySignal.op Args World Exn)),
       Z.of_nat (PrioritySignal.count_adds ops) ≤ 2 ^ 32 →
       let s :=
         (PrioritySignal.exec ops
            (PrioritySignal.default_init indeterminate)).2 in
       NoDup (getCallbackId <$> PrioritySignal.callbackList s)
       ∧ (∀ id,
            (length (PrioritySignal.callbackList s)
             ≤ S (length (PrioritySignal.callbackList
                            (PrioritySignal.remove id s))))%nat)).
Proof.
  split_and!.
  - intros s ops Hn. rewrite Signal_exec_ids. by apply increments_NoDup.
  - intros s ops Hn. rewrite PrioritySignal_exec_ids.
    by apply increments_NoDup.
  - intros c ops Hn s.
    assert (NoDup (getCallbackId <$> PrioritySignal.callbackList s)) as Hnd.
    { eapply submseteq_NoDup_l; [apply PrioritySignal_ids_issued|].
      cbn. rewrite PrioritySignal_exec_ids. by apply increments_NoDup. }
    split; [done|]. intros id. rewrite PrioritySignal_remove_list.
    by apply filter_erases_at_most_one.
Qed.

(** X14.  In every state that [add], [remove] and [removeAll] calls lead
    to from a new [PrioritySignal], no entry has a higher priority than
    the first entry of the list, and [dispatch] calls the listener of
    that entry first, whether or not a listener throws. *)
Theorem highest_priority_called_first
    indeterminate (ops : list (PrioritySignal.op Args World Exn)) args w
    (a : PrioritizedCallback Args World Exn) rest :
  let s :=
    (PrioritySignal.exec ops (PrioritySignal.default_init indeterminate)).2 in
  PrioritySignal.callbackList s = a :: rest →
  Forall (priority_ge a) rest
  ∧ ∃ more,
      calls (PrioritySignal.dispatch args s w)
      = Invoke (getCallbackId a) (getCallback a) args :: more.
Proof.
  intros s Hl. split.
  - destruct (PrioritySignal_order_inv ops
                (PrioritySignal.default_init indeterminate) [])
      as [Hsorted _]; [constructor|done|done|].
    fold s in Hsorted. rewrite Hl in Hsorted.
    by apply StronglySorted_cons in Hsorted as [? _].
  - rewrite PrioritySignal_dispatch_call_each.
    unfold PrioritySignal.listeners. rewrite Hl, fmap_cons, call_each_cons.
    destruct (getCallback a args w); by eexists.
Qed.
End RegistriesMore.

(** ** The further properties at work on the usage example *)

Lemma Signal_add_registers_under_fresh_identifier_witness :
  let s :=
    (Signal.exec
       [Signal.Add print_sum; Signal.Remove 1; Signal.Add print_product]
       Signal.new).2 in
  (Signal.add throwing s).1 = 3
  ∧ Signal.callbackMap (Signal.add throwing s).2 !! 3 = Some throwing
  ∧ size (Signal.callbackMap (Signal.add throwing s).2)
    = S (size (Signal.callbackMap s)).
Proof.
  intros s.
  assert (Z.of_nat
            (Signal.count_adds
               [Signal.Add print_sum; Signal.Remove 1;
                Signal.Add print_product]) < INT_MAX) as Hn
    by (by vm_compute).
  destruct (Signal_add_registers_under_fresh_identifier _ throwing Hn)
    as (Hid & _ & Hcb & _ & Hsize).
  fold s in Hid, Hcb, Hsize. rewrite Hid in Hcb. done.
Defined.

Lemma Signal_remove_undoes_add_witness :
  let s :=
    (Signal.exec [Signal.Add print_sum; Signal.Add print_product]
       Signal.new).2 in
  Signal.remove 3 (Signal.add throwing s).2
  = {| Signal.callbackId := 3; Signal.callbackMap := Signal.callbackMap s |}.
Proof.
  intros s.
  refine (proj2 Signal_remove_undoes_add
            [Signal.Add print_sum; Signal.Add print_product] throwing _).
  by vm_compute.
Defined.

Lemma Signal_add_on_taken_identifier_witness :
  let s :=
    {| Signal.callbackId := 0;
       Signal.callbackMap := {[1 := print_sum]} |} in
  (Signal.add print_product s).1 = 1
  ∧ Signal.callbackMap (Signal.add print_product s).2 = {[1 := print_sum]}.
Proof.
  intros s.
  assert (Signal.callbackMap s !! pre_increment (Signal.callbackId s)
          = Some print_sum) as Htaken by (by vm_compute).
  destruct (Signal_add_on_taken_identifier s print_product print_sum Htaken)
    as (Hid & Hmap & _).
  done.
Defined.

(** The registry of this example is one that a client can get to: it
    registers [print_sum], which gets identifier 1, and then registers and
    removes another listener 2^32 - 1 times; the counter is back at 0, and
    [print_sum] is still registered under 1. *)
Lemma Signal_taken_identifier_reachable :
  (Signal.exec
     ([Signal.Add print_sum]
      ++ Signal.add_remove_rounds print_product 1 (Z.to_nat (2 ^ 32 - 1)))
     Signal.new).2
  = {| Signal.callbackId := 0; Signal.callbackMap := {[1 := print_sum]} |}.
Proof.
  rewrite Signal_exec_app_state.
  assert ((Signal.exec [Signal.Add print_sum] Signal.new).2
          = {| Signal.callbackId := 1;
               Signal.callbackMap := {[1 := print_sum]} |}) as ->
    by reflexivity.
  assert (Z.of_nat (Z.to_nat (2 ^ 32 - 1)) = 2 ^ 32 - 1) as Hn
    by (apply Z2Nat.id; by vm_compute).
  generalize dependent (Z.to_nat (2 ^ 32 - 1)). intros n Hn.
  rewrite Signal_exec_add_remove_rounds.
  - rewrite Hn. reflexivity.
  - by vm_compute.
  - intros j Hj. apply lookup_singleton_ne. intros Heq.
    assert (1 + Z.of_nat j = 1); [|lia].
    apply int_wrap_inj; [|by rewrite <-Heq].
    change (2 ^ 32) with 4294967296 in *. lia.
Qed.

Lemma PriorityCompare_strict_weak_ordering_witness :
  let a := PrioritizedCallback.mk print_sum 10 1 in
  let b := PrioritizedCallback.mk print_product 5 2 in
  let c := PrioritizedCallback.mk throwing 1 3 in
  PriorityCompare a c = true.
Proof.
  intros a b c.
  apply (proj1 (proj2 PriorityCompare_strict_weak_ordering) a b c);
    reflexivity.
Defined.

Lemma PrioritySignal_add_position_witness :
  let s :=
    {| PrioritySignal.callbackId := 2;
       PrioritySignal.callbackList :=
         [PrioritizedCallback.mk print_sum 10 1;
          PrioritizedCallback.mk print_product 5 2] |} in
  PrioritySignal.callbackList (PrioritySignal.add throwing 7 s).2
  = [PrioritizedCallback.mk print_sum 10 1;
     PrioritizedCallback.mk throwing 7 3;
     PrioritizedCallback.mk print_product 5 2].
Proof.
  intros s. apply (PrioritySignal_add_position s throwing 7).
  repeat constructor. by vm_compute.
Defined.

Lemma priority_dispatch_calls_each_entry_once_witness :
  let s :=
    {| PrioritySignal.callbackId := 2;
       PrioritySignal.callbackList :=
         [PrioritizedCallback.mk print_sum 10 1;
          PrioritizedCallback.mk print_product 5 2] |} in
  (∃ out, ending (PrioritySignal.dispatch (2, 3) s []) = Returns tt out)
  ∧ calls (PrioritySignal.dispatch (2, 3) s [])
    = [Invoke 1 print_sum (2, 3); Invoke 2 print_product (2, 3)].
Proof.
  intros s.
  destruct (priority_dispatch_calls_each_entry_once s (2, 3) [])
    as [Hreturns Honce].
  split.
  - apply Hreturns. repeat constructor; intros out; by eexists.
  - assert (ending (PrioritySignal.dispatch (2, 3) s []) = Returns tt [5; 6])
      as Hend by (by vm_compute).
    by destruct (Honce _ Hend) as (Hcalls & _).
Defined.

Lemma dispatch_calls_only_registered_listeners_witness :
  let s :=
    (Signal.exec
       [Signal.Add print_sum; Signal.Add throwing; Signal.Add print_product]
       Signal.new).2 in
  Signal.callbackMap s !! 2 = Some throwing
  ∧ (length (calls (Signal.dispatch (2%Z, 3%Z) s []))
     ≤ size (Signal.callbackMap s))%nat.
Proof.
  intros s.
  destruct (proj1 (@dispatch_calls_only_registered_listeners
                     (Z * Z) (list Z) unit) s (2, 3) [])
    as (_ & Hreg & Hlen).
  split; [|done].
  apply (Hreg (Invoke 2 throwing (2, 3))).
  assert (calls (Signal.dispatch (2, 3) s [])
          = [Invoke 1 print_sum (2, 3); Invoke 2 throwing (2, 3)]) as ->
    by (by vm_compute).
  apply elem_of_cons. right. apply elem_of_cons. by left.
Defined.

Lemma dispatch_throw_comes_from_last_call_witness :
  let s :=
    (Signal.exec
       [Signal.Add print_sum; Signal.Add throwing; Signal.Add print_product]
       Signal.new).2 in
  ∃ l1 x l2 w1,
    Signal.listeners s = l1 ++ x :: l2
    ∧ returns_all (2, 3) [] l1.*2 w1
    ∧ x.2 (2, 3) w1 = Thrown tt [5]
    ∧ calls (Signal.dispatch (2, 3) s []) = invocation_of (2, 3) <$> l1 ++ [x].
Proof.
  intros s.
  apply (proj1 (@dispatch_throw_comes_from_last_call (Z * Z) (list Z) unit)).
  by vm_compute.
Defined.

Lemma add_identifiers_pairwise_different_witness :
  NoDup
    (PrioritySignal.exec
       [PrioritySignal.Add print_sum 5; PrioritySignal.Add print_product 1;
        PrioritySignal.Remove 0; PrioritySignal.Add throwing 10]
       (PrioritySignal.default_init (-2))).1.
Proof.
  apply (proj1 (proj2 add_identifiers_pairwise_different)).
  vm_compute. discriminate.
Defined.

Lemma PrioritySignal_remove_undoes_add_witness :
  let s :=
    {| PrioritySignal.callbackId := 2;
       PrioritySignal.callbackList :=
         [PrioritizedCallback.mk print_sum 10 1;
          PrioritizedCallback.mk print_product 5 2] |} in
  PrioritySignal.callbackList
    (PrioritySignal.remove 3 (PrioritySignal.add throwing 7 s).2)
  = PrioritySignal.callbackList s.
Proof.
  intros s.
  refine (proj2 (PrioritySignal_remove_undoes_add s throwing 7 _) _).
  - repeat constructor. by vm_compute.
  - compute_done.
Defined.

Lemma highest_priority_called_first_witness :
  let s :=
    (PrioritySignal.exec
       [PrioritySignal.Add print_sum 1; PrioritySignal.Add throwing 10;
        PrioritySignal.Add print_product 5]
       (PrioritySignal.default_init 41)).2 in
  ∃ more,
    calls (PrioritySignal.dispatch (2, 3) s [])
    = Invoke 43 throwing (2, 3) :: more.
Proof.
  intros s.
  refine (proj2 (highest_priority_called_first 41
                   [PrioritySignal.Add print_sum 1;
                    PrioritySignal.Add throwing 10;
                    PrioritySignal.Add print_product 5]
                   (2, 3) [] (PrioritizedCallback.mk throwing 10 43)
                   [PrioritizedCallback.mk print_product 5 44;
                    PrioritizedCallback.mk print_sum 1 42] _)).
  by vm_compute.
Defined.
